(** * Liberty Country music player: playback controller

    A shallow embedding of [cogs/music_power.py]: the per-guild player
    state ([GuildState]), the JSON state file read by the admin panel
    ([_update_state]), the playback engine ([MusicPower.play_next],
    [MusicPower._after_finished]), the slash commands that edit the queue,
    the control-file watcher and the idle reaper, followed by the
    properties of the specification that concern them.

    Conventions of the embedding.
    - A Python [int] is a [Z]; a [float] holding a volume or a timestamp is a
      rational [Q] (the arithmetic done on them is [x / 100.0], a difference
      of two timestamps and comparisons, which are order-faithful on
      binary64); [str] is [string]; a [deque] or [list] is a [list], front
      first; a [dict] with string keys is a [gmap string _].
    - Objects mutated in place ([GuildState], the state file, the control
      file) are threaded through a [World]; every call made to Discord,
      FFmpeg or Lavalink is appended to the [effects] trace, and what those
      collaborators answer comes from an [Env].
    - A coroutine returns an [Outcome]: it returns, raises, or never
      resumes because it awaits a lock that nobody will release.
    - A message handed to Discord is recorded with its content; whether
      Discord accepts the keyword arguments it is sent with is not part of
      the model. *)

From Stdlib Require Import ZArith QArith List String Ascii Lia Bool.
From stdpp Require Import gmap strings list pretty.

Close Scope Q_scope.
Open Scope string_scope.
Open Scope list_scope.
Open Scope Z_scope.

(** ** Tracks and player state *)

Record Track := mkTrack {
  title : string;
  webpage_url : string;
  stream_url : string;
  duration : Z;
  requested_by : Z;
  source : string;
  thumb : option string;
  uploader : option string
}.

Module LoopMode.
Definition OFF : Z := 0.
Definition ONE : Z := 1.
Definition ALL : Z := 2.
End LoopMode.

(** [GuildState] without its [lock] attribute: the dataclass default
    [asyncio.Lock()] is evaluated once, so every instance refers to the same
    lock object; its state is the [lock_locked] field of the [World]. *)
Record GuildState := mkGuildState {
  queue : list Track;
  loop : Z;
  volume : Q;
  filter_id : option string;
  last_text_channel_id : option Z;
  idle_since : Q;
  now : option Track;
  autoplay : bool;
  radio_query : option string
}.

(** [GuildState(queue=deque())] *)
Definition new_GuildState : GuildState :=
  mkGuildState [] LoopMode.OFF (1 # 1) None None (0 # 1) None false None.

Definition set_queue (q : list Track) (s : GuildState) : GuildState :=
  mkGuildState q (loop s) (volume s) (filter_id s) (last_text_channel_id s)
    (idle_since s) (now s) (autoplay s) (radio_query s).
Definition set_loop (l : Z) (s : GuildState) : GuildState :=
  mkGuildState (queue s) l (volume s) (filter_id s) (last_text_channel_id s)
    (idle_since s) (now s) (autoplay s) (radio_query s).
Definition set_volume (v : Q) (s : GuildState) : GuildState :=
  mkGuildState (queue s) (loop s) v (filter_id s) (last_text_channel_id s)
    (idle_since s) (now s) (autoplay s) (radio_query s).
Definition set_last_text_channel_id (c : option Z) (s : GuildState) : GuildState :=
  mkGuildState (queue s) (loop s) (volume s) (filter_id s) c
    (idle_since s) (now s) (autoplay s) (radio_query s).
Definition set_idle_since (t : Q) (s : GuildState) : GuildState :=
  mkGuildState (queue s) (loop s) (volume s) (filter_id s) (last_text_channel_id s)
    t (now s) (autoplay s) (radio_query s).
Definition set_now (n : option Track) (s : GuildState) : GuildState :=
  mkGuildState (queue s) (loop s) (volume s) (filter_id s) (last_text_channel_id s)
    (idle_since s) n (autoplay s) (radio_query s).

(** [GuildState.clear] *)
Definition clear (s : GuildState) : GuildState :=
  mkGuildState [] LoopMode.OFF (volume s) None (last_text_channel_id s)
    (idle_since s) None false None.

(** ** Python helpers *)

(** [int(x)] on a non-negative or negative float: truncation toward zero. *)
Definition py_int_of_float (x : Q) : Z := Z.quot (Qnum x) (Z.pos (Qden x)).

(** Truthiness of an optional string ([None] and [""] are false). *)
Definition str_truthy (o : option string) : bool :=
  match o with
  | Some s => negb (String.eqb s "")
  | None => false
  end.

(** [xs[:n]] for an integer [n] of either sign. *)
Definition py_slice_to {A} (n : Z) (xs : list A) : list A :=
  if n <? 0 then take (Z.to_nat (Z.of_nat (length xs) + n)) xs
  else take (Z.to_nat n) xs.

(** [q.pop(i)] for [0 <= i < len(q)], the only range the callers reach. *)
Definition list_pop {A} (i : nat) (q : list A) : option (A * list A) :=
  match q !! i with
  | Some x => Some (x, take i q ++ drop (S i) q)
  | None => None
  end.

(** [q.insert(i, x)] for [0 <= i]: past the end it appends. *)
Definition list_insert_at {A} (i : nat) (x : A) (q : list A) : list A :=
  take i q ++ x :: drop i q.

(** [f"{n:02d}"] *)
Definition fmt_02d (n : Z) : string :=
  if (0 <=? n) && (n <? 10) then "0" +:+ pretty n else pretty n.

(** [Track.duration_str] *)
Definition duration_str (t : Track) : string :=
  if duration t <=? 0 then "LIVE"
  else
    let m := duration t / 60 in
    let s := duration t `mod` 60 in
    let h := m / 60 in
    let m := m `mod` 60 in
    if h =? 0 then fmt_02d m +:+ ":" +:+ fmt_02d s
    else pretty h +:+ ":" +:+ fmt_02d m +:+ ":" +:+ fmt_02d s.

(** [a or b] on optional strings. *)
Definition str_or (a b : option string) : option string :=
  if str_truthy a then a else b.

(** [math.ceil(n / per)] for a positive [per]. *)
Definition py_ceil_div (n per : Z) : Z := - ((- n) / per).

(** ** The JSON state file *)

Record QueueItem := mkQueueItem { qi_title : string; qi_web : string; qi_dur : Z }.

Inductive JVal :=
| JNull
| JBool (b : bool)
| JInt (z : Z)
| JFloat (x : Q)
| JStr (s : string)
| JQueue (items : list QueueItem).

Definition jopt (o : option string) : JVal :=
  match o with Some s => JStr s | None => JNull end.

(** [str(guild_id)] *)
Definition str (guild_id : Z) : string := pretty guild_id.

(** The content of [STATE_FILE]: [None] when the file is missing or does
    not decode. Writes are taken to succeed (a failed write is swallowed by
    the source and leaves the file as it was). *)
Definition _load_json_state (file : option (gmap string (gmap string JVal)))
  : gmap string (gmap string JVal) :=
  match file with Some m => m | None => ∅ end.

Definition _save_json_state (state : gmap string (gmap string JVal))
  : option (gmap string (gmap string JVal)) := Some state.

(** [_update_state(guild_id, payload)] *)
Definition _update_state (guild_id : Z) (payload : option (gmap string JVal))
    (file : option (gmap string (gmap string JVal)))
  : option (gmap string (gmap string JVal)) :=
  let state := _load_json_state file in
  _save_json_state
    match payload with
    | None => delete (str guild_id) state
    | Some p => <[str guild_id := p]> state
    end.

(** The five keys both [_snapshot_state] and [play_next] merge into the
    payload when a track is current ([dict.update]). *)
Definition now_fields (t : Track) (time : Q) (payload : gmap string JVal)
  : gmap string JVal :=
  <["started_at" := JInt (py_int_of_float time)]>
  (<["thumb" := jopt (thumb t)]>
  (<["duration" := JInt (duration t)]>
  (<["web" := JStr (webpage_url t)]>
  (<["title" := JStr (title t)]> payload)))).

(** [_snapshot_state(st)]; [limit] is [int(os.getenv("LC_QUEUE_EXPORT_LIMIT",
    "100"))] and [time] the value of [time.time()] when it is read. The
    product [st.volume * 100] is exact here; on binary64 it can fall just
    below the integer, which no property below depends on. *)
Definition _snapshot_state (limit : Z) (time : Q) (s : GuildState) : gmap string JVal :=
  let q_preview :=
    (fun t => mkQueueItem (title t) (webpage_url t) (duration t))
      <$> py_slice_to limit (queue s) in
  let payload : gmap string JVal :=
    <["status" := JStr (match now s with None => "idle" | Some _ => "playing" end)]>
    (<["loop" := JBool ((loop s =? LoopMode.ONE) || (loop s =? LoopMode.ALL))]>
    (<["volume" := JInt (py_int_of_float (volume s * (100 # 1))%Q)]>
    (<["filter" := JStr (if str_truthy (filter_id s)
                          then default "off" (filter_id s) else "off")]>
    (<["queue_len" := JInt (Z.of_nat (length (queue s)))]>
    (<["queue" := JQueue q_preview]> ∅))))) in
  match now s with
  | Some t => now_fields t time payload
  | None => payload
  end.

(** ** The world the cog lives in *)

Inductive Exn :=
| AttributeError (msg : string)
| ValueError (msg : string)
| IndexError (msg : string)
| ExternalError (msg : string).

Inductive Outcome :=
| Returned
| Raised (e : Exn)
| Blocked
| OutOfFuel.

(** The texts the modelled coroutines send, by the f-string they come from. *)
Inductive Message :=
| MsgPlaybackError (e : string)
| MsgSearchError (e : string)
| MsgStarting (first_title : string) (more : Z)
| MsgQueued (first_title : string) (more : Z)
| MsgSkipped
| MsgNothingPlaying
| MsgStopped
| MsgLeft
| MsgNotInVoice
| MsgPaused
| MsgNothingToPause
| MsgBadIndex
| MsgBadIndices
| MsgRemoved (t : string)
| MsgMoved (t : string) (dst : Z)
| MsgVolume (percent : Z)
| MsgNowEmbed.

(** Calls made to the collaborators, oldest first. *)
Inductive Effect :=
| ResponseDefer
| ResponseSend (m : Message)
| FollowupSend (m : Message)
| ChannelSend (m : Message)
| ConnectPlayer
| LocalPlay (t : Track) (filter : option string) (vol : Q)
| LavalinkPlay (t : Track)
| VcStop
| VcPause
| VcDisconnect.

Record VoiceClient := mkVoiceClient {
  is_playing : bool;
  is_paused : bool;
  is_player : bool      (* isinstance(vc, wavelink.Player) *)
}.

Inductive NodeAnswer :=
| NodeFound
| NodeEmpty
| NodeFails (e : string).

(** What the collaborators answer during one invocation. *)
Record Env := mkEnv {
  guild : option Z;                       (* inter.guild, by its id *)
  voice_client : option VoiceClient;      (* guild.voice_client *)
  user_in_voice : bool;                   (* inter.user is a Member in a voice channel *)
  user_id : Z;                            (* inter.user.id *)
  channel_id : option Z;                  (* inter.channel_id *)
  lavalink : bool;                        (* BACKEND == "lavalink" and WAVLINK_AVAILABLE *)
  connect_player : option string;         (* what channel.connect(cls=Player) raises *)
  ffmpeg_play : Track -> option string;   (* what _play_local raises for a track *)
  node_play : Track -> NodeAnswer;        (* ensure_node and fetch_tracks in _play_lavalink *)
  search : string -> string + list Track; (* backend.search: the error or the tracks *)
  random_choice : nat;                    (* the index random.choice draws *)
  int_of_str : string -> option Z;        (* the built-in int() on a str *)
  clock : nat -> Q;                       (* the n-th time.time() of the invocation *)
  export_limit : Z                        (* int(os.getenv("LC_QUEUE_EXPORT_LIMIT", "100")) *)
}.

Record World := mkWorld {
  states : gmap Z GuildState;                          (* self.states *)
  lock_locked : bool;                                  (* GuildState.lock.locked() *)
  state_file : option (gmap string (gmap string JVal)); (* STATE_FILE *)
  effects : list Effect
}.

Definition set_states (m : gmap Z GuildState) (w : World) : World :=
  mkWorld m (lock_locked w) (state_file w) (effects w).
Definition set_lock (b : bool) (w : World) : World :=
  mkWorld (states w) b (state_file w) (effects w).
Definition set_state_file (f : option (gmap string (gmap string JVal))) (w : World) : World :=
  mkWorld (states w) (lock_locked w) f (effects w).
Definition emit (e : Effect) (w : World) : World :=
  mkWorld (states w) (lock_locked w) (state_file w) (effects w ++ [e]).

(** [self.gs(guild_id)]: the session is created on first reference. *)
Definition gs (guild_id : Z) (w : World) : GuildState * World :=
  match states w !! guild_id with
  | Some s => (s, w)
  | None => (new_GuildState, set_states (<[guild_id := new_GuildState]> (states w)) w)
  end.

(** Storing back the fields assigned on the object [gs] returned. *)
Definition put (guild_id : Z) (s : GuildState) (w : World) : World :=
  set_states (<[guild_id := s]> (states w)) w.

Definition publish (guild_id : Z) (payload : option (gmap string JVal)) (w : World) : World :=
  set_state_file (_update_state guild_id payload (state_file w)) w.

Definition exn_text (e : Exn) : string :=
  match e with
  | AttributeError m => m
  | ValueError m => m
  | IndexError m => m
  | ExternalError m => m
  end.

(** What [replay] and [queue] answer to the caller: one field of the
    queue embed is [name=f"{i}. {t.title}", value=t.duration_str]. *)
Record QueueField := mkQueueField {
  qf_number : Z;
  qf_title : string;
  qf_duration : string
}.

Inductive Reply :=
| ReplyNothingToReplay
| ReplyReplayQueued
| ReplyQueueEmpty
| ReplyQueuePage (page pages : Z) (fields : list QueueField).

(** ** The cog *)

Module MusicPower.

(** The Lavalink branch that opens [play_next]: a voice client that is not
    a [wavelink.Player] is replaced by connecting again, which may raise. *)
Definition reconnect_player (env : Env) (w : World) : Exn + World :=
  match voice_client env with
  | Some vc =>
      if lavalink env && negb (is_player vc) && user_in_voice env then
        match connect_player env with
        | Some e => inl (ExternalError e)
        | None => inr (emit ConnectPlayer w)
        end
      else inr w
  | None => inr w
  end.

(** [_play_local]: build the FFmpeg source with the session's filter and
    volume and hand it to [vc.play]. *)
Definition _play_local (env : Env) (s : GuildState) (track : Track) (w : World)
  : Exn + World :=
  match ffmpeg_play env track with
  | Some e => inl (ExternalError e)
  | None => inr (emit (LocalPlay track (filter_id s) (volume s)) w)
  end.

(** [_play_lavalink]: plays the first fetched result, if there is one. *)
Definition _play_lavalink (env : Env) (track : Track) (w : World) : Exn + World :=
  match node_play env track with
  | NodeFails e => inl (ExternalError e)
  | NodeEmpty => inr w
  | NodeFound => inr (emit (LavalinkPlay track) w)
  end.

(** The tail of [play_next] from [st.now = track] on: publish the
    snapshot, start the source and, when that raises, notify the caller and
    call [play_next] again ([retry]) from inside the [async with] block,
    which is left, releasing the lock, only once [retry] has come back. *)
Definition start_track (retry : World -> Outcome * World) (env : Env) (gid : Z)
    (track : Track) (s : GuildState) (w : World) : Outcome * World :=
  let s := set_now (Some track) s in
  let w := put gid s w in
  let payload := _snapshot_state (export_limit env) (clock env 0%nat) s in
  let payload :=
    <["status" := JStr "playing"]> (now_fields track (clock env 1%nat) payload) in
  let w := publish gid (Some payload) w in
  let started :=
    if lavalink env then _play_lavalink env track w
    else match voice_client env with
         | None => inr w
         | Some _ => _play_local env s track w
         end in
  match started with
  | inr w => (Returned, set_lock false w)
  | inl e =>
      let w := emit (FollowupSend (MsgPlaybackError (exn_text e))) w in
      match retry w with
      | (Blocked, w) => (Blocked, w)
      | (OutOfFuel, w) => (OutOfFuel, w)
      | (o, w) => (o, set_lock false w)
      end
  end.

(** The branch of [play_next] taken on an empty queue. *)
Definition go_idle (env : Env) (gid : Z) (s : GuildState) (w : World) : Outcome * World :=
  let s := set_now None s in
  let w := publish gid (Some (_snapshot_state (export_limit env) (clock env 0%nat) s))
             (put gid s w) in
  let s := set_idle_since (clock env 0%nat) s in
  (Returned, set_lock false (put gid s w)).

(** The body of [play_next(inter, started_by_skip=...)], with the call it
    makes to itself as [retry]. [async with st.lock] is the test of
    [lock_locked] (the lock is not re-entrant: acquiring it while it is held
    suspends the coroutine until a release) and the [set_lock false] on the
    way out. *)
Definition play_next_body (retry : World -> Outcome * World) (env : Env)
    (started_by_skip : bool) (w : World) : Outcome * World :=
  match guild env with
  | None => (Returned, w)
  | Some gid =>
    match reconnect_player env w with
    | inl e => (Raised e, w)
    | inr w =>
      let '(s, w) := gs gid w in
      if lock_locked w then (Blocked, w) else
      let w := set_lock true w in
      let replay :=
        match now s with
        | Some cur =>
            if (loop s =? LoopMode.ONE) && negb started_by_skip then Some cur else None
        | None => None
        end in
      match replay with
      | Some cur => start_track retry env gid cur s w
      | None =>
          match queue s with
          | [] => go_idle env gid s w
          | track :: rest =>
              let s := set_queue rest s in
              let s :=
                match now s with
                | Some prev =>
                    if (loop s =? LoopMode.ALL) && negb started_by_skip
                    then set_queue (queue s ++ [prev]) s else s
                | None => s
                end in
              start_track retry env gid track s w
          end
      end
    end
  end.

(** [play_next]: [fuel] bounds the depth of the retries. *)
Fixpoint play_next (fuel : nat) (env : Env) (started_by_skip : bool) (w : World)
  {struct fuel} : Outcome * World :=
  match fuel with
  | O => (OutOfFuel, w)
  | S fuel' => play_next_body (play_next fuel' env false) env started_by_skip w
  end.

(** [_after_finished(inter, err)]: the completion callback. With an empty
    queue and autoplay or a radio query it first appends one random search
    result; a failing search is swallowed. *)
Definition _after_finished (fuel : nat) (env : Env) (w : World) : Outcome * World :=
  match guild env with
  | None => (Raised (AttributeError "'NoneType' object has no attribute 'id'"), w)
  | Some gid =>
      let '(s, w) := gs gid w in
      let w :=
        match queue s with
        | [] =>
            if autoplay s || str_truthy (radio_query s) then
              let seed := if str_truthy (radio_query s) then radio_query s
                          else title <$> now s in
              match seed with
              | Some sd =>
                  if str_truthy seed then
                    match search env ("ytsearch10:" +:+ sd +:+ " official audio") with
                    | inr candidates =>
                        match candidates !! (random_choice env `mod` length candidates)%nat with
                        | Some c => put gid (set_queue (queue s ++ [c]) s) w
                        | None => w
                        end
                    | inl _ => w
                    end
                  else w
              | None => w
              end
            else w
        | _ :: _ => w
        end in
      play_next fuel env false w
  end.


(** [first = tracks[0] if tracks else None] followed by [first.title]. *)
Definition first_title (tracks : list Track) : Exn + string :=
  match tracks with
  | first :: _ => inr (title first)
  | [] => inl (AttributeError "'NoneType' object has no attribute 'title'")
  end.

Definition more_count (tracks : list Track) : Z :=
  if 1 <? Z.of_nat (length tracks) then Z.of_nat (length tracks) - 1 else 0.

(** [play(inter, query)]. [ensure_connected] is the collaborator that
    answers [voice_client env]; it answers [None] outside a guild. *)
Definition play (fuel : nat) (env : Env) (query : string) (w : World) : Outcome * World :=
  let w := emit ResponseDefer w in
  match guild env, voice_client env with
  | Some gid, Some vc =>
      let '(s, w) := gs gid w in
      let s := set_last_text_channel_id (channel_id env) s in
      let w := put gid s w in
      match search env query with
      | inl e => (Returned, emit (FollowupSend (MsgSearchError e)) w)
      | inr tracks =>
          let tracks :=
            (fun t => mkTrack (title t) (webpage_url t) (stream_url t) (duration t)
                        (user_id env) (source t) (thumb t) (uploader t)) <$> tracks in
          let s := set_queue (queue s ++ tracks) s in
          let w := put gid s w in
          let announce (kind : string -> Z -> Message) (w : World) : Outcome * World :=
            match first_title tracks with
            | inl e => (Raised e, w)
            | inr t =>
                let w := emit (FollowupSend (kind t (more_count tracks))) w in
                (Returned, emit (ChannelSend MsgNowEmbed) w)
            end in
          if negb (is_playing vc) && negb (is_paused vc) then
            match play_next fuel env false w with
            | (Returned, w) => announce MsgStarting w
            | (o, w) => (o, w)
            end
          else announce MsgQueued w
      end
  | _, _ => (Returned, w)
  end.

(** [vc = inter.guild.voice_client if inter.guild else None] *)
Definition guild_vc (env : Env) : option VoiceClient :=
  match guild env with Some _ => voice_client env | None => None end.

(** [skip(inter)] *)
Definition skip (fuel : nat) (env : Env) (w : World) : Outcome * World :=
  let w := emit ResponseDefer w in
  let go (w : World) : Outcome * World :=
    match play_next fuel env true (emit VcStop w) with
    | (Returned, w) => (Returned, emit (FollowupSend MsgSkipped) w)
    | (o, w) => (o, w)
    end in
  match guild_vc env with
  | Some vc =>
      if lavalink env && is_player vc then go w
      else if negb (is_playing vc) then (Returned, emit (FollowupSend MsgNothingPlaying) w)
      else go w
  | None => (Returned, emit (FollowupSend MsgNothingPlaying) w)
  end.

(** [stop(inter)] *)
Definition stop (env : Env) (w : World) : Outcome * World :=
  match guild env with
  | None => (Raised (AttributeError "'NoneType' object has no attribute 'id'"), w)
  | Some gid =>
      let '(s, w) := gs gid w in
      let w := put gid (clear s) w in
      let w :=
        match guild_vc env with
        | Some vc =>
            if lavalink env && is_player vc then emit VcStop w
            else if is_playing vc || is_paused vc then emit VcStop w
            else w
        | None => w
        end in
      let w := publish gid None w in
      (Returned, emit (ResponseSend MsgStopped) w)
  end.

(** [leave(inter)] *)
Definition leave (env : Env) (w : World) : Outcome * World :=
  match guild env, guild_vc env with
  | Some gid, Some vc =>
      let w := emit VcDisconnect (emit ResponseDefer w) in
      let '(s, w) := gs gid w in
      let w := publish gid None (put gid (clear s) w) in
      (Returned, emit (FollowupSend MsgLeft) w)
  | _, _ => (Returned, emit (ResponseSend MsgNotInVoice) w)
  end.

(** [pause(inter)] *)
Definition pause (env : Env) (w : World) : Outcome * World :=
  match guild env, guild_vc env with
  | Some gid, Some vc =>
      if (lavalink env && is_player vc) || is_playing vc then
        let w := emit VcPause w in
        let w := publish gid (Some {["status" := JStr "paused"]}) w in
        (Returned, emit (ResponseSend MsgPaused) w)
      else (Returned, emit (ResponseSend MsgNothingToPause) w)
  | _, _ => (Returned, emit (ResponseSend MsgNothingToPause) w)
  end.

(** [remove(inter, index)] *)
Definition remove (env : Env) (index : Z) (w : World) : Outcome * World :=
  match guild env with
  | None => (Raised (AttributeError "'NoneType' object has no attribute 'id'"), w)
  | Some gid =>
      let '(s, w) := gs gid w in
      if (index <? 1) || (Z.of_nat (length (queue s)) <? index) then
        (Returned, emit (ResponseSend MsgBadIndex) w)
      else
        match list_pop (Z.to_nat (index - 1)) (queue s) with
        | Some (t, q) =>
            let s := set_queue q s in
            let w := put gid s w in
            let w := publish gid
                       (Some (_snapshot_state (export_limit env) (clock env 0%nat) s)) w in
            (Returned, emit (ResponseSend (MsgRemoved (title t))) w)
        | None => (Raised (IndexError "pop index out of range"), w)
        end
  end.

(** [move(inter, src_index, dst_index)] *)
Definition move (env : Env) (src_index dst_index : Z) (w : World) : Outcome * World :=
  match guild env with
  | None => (Raised (AttributeError "'NoneType' object has no attribute 'id'"), w)
  | Some gid =>
      let '(s, w) := gs gid w in
      let n := Z.of_nat (length (queue s)) in
      if (src_index <? 1) || (dst_index <? 1) || (n <? src_index) || (n <? dst_index) then
        (Returned, emit (ResponseSend MsgBadIndices) w)
      else
        match list_pop (Z.to_nat (src_index - 1)) (queue s) with
        | Some (t, q) =>
            let s := set_queue (list_insert_at (Z.to_nat (dst_index - 1)) t q) s in
            let w := put gid s w in
            let w := publish gid
                       (Some (_snapshot_state (export_limit env) (clock env 0%nat) s)) w in
            (Returned, emit (ResponseSend (MsgMoved (title t) dst_index)) w)
        | None => (Raised (IndexError "pop index out of range"), w)
        end
  end.

(** *** The control-file watcher *)

Definition LF : ascii := "010"%char.
Definition CR : ascii := "013"%char.

(** [f.readlines()] of a text file opened with universal newlines: every
    line keeps its terminator, translated to a line feed. *)
Fixpoint readlines_from (cur : string) (s : string) : list string :=
  match s with
  | EmptyString => if String.eqb cur "" then [] else [cur]
  | String c rest =>
      if Ascii.eqb c LF then (cur +:+ String LF "") :: readlines_from "" rest
      else if Ascii.eqb c CR then
        match rest with
        | String c' rest' =>
            if Ascii.eqb c' LF then (cur +:+ String LF "") :: readlines_from "" rest'
            else (cur +:+ String LF "") :: readlines_from "" rest
        | EmptyString => [cur +:+ String LF ""]
        end
      else readlines_from (cur +:+ String c "") rest
  end.

Definition readlines (s : string) : list string := readlines_from "" s.

(** [f.seek(pos)] followed by reading: what lies at and after [pos]. *)
Fixpoint seek (pos : nat) (s : string) : string :=
  match pos, s with
  | O, _ => s
  | S p, String _ rest => seek p rest
  | S _, EmptyString => EmptyString
  end.

(** The file part of one cycle of [_control_queue_watcher]: with the
    cursor [pos] kept from the previous cycle and the content of
    [CONTROL_FILE] ([None] when it does not exist), the lines read, the new
    cursor ([f.tell()], the end of the file or [pos] when that lies beyond
    it) and the file left behind by [f.truncate(0)]. *)
Definition watcher_read (pos : nat) (file : option string)
  : list string * nat * option string :=
  match file with
  | None => ([], pos, None)
  | Some content =>
      (readlines (seek pos content), Nat.max pos (String.length content), Some "")
  end.

(** [_append_control] and the panel's [write_control]: [record] is the
    [json.dumps] of the command; the file is created when missing. *)
Definition _append_control (record : string) (file : option string) : option string :=
  Some (default "" file +:+ record +:+ String LF "").

(** [int(x)] on a decoded JSON value. *)
Definition py_int (env : Env) (x : JVal) : option Z :=
  match x with
  | JInt z => Some z
  | JBool b => Some (if b then 1 else 0)
  | JFloat q => Some (py_int_of_float q)
  | JStr s => int_of_str env s
  | JNull | JQueue _ => None
  end.

(** The branch [action == "volume"] of the watcher, for a command whose
    guild [gid] is known. *)
Definition control_volume (env : Env) (gid : Z) (payload : gmap string JVal) (w : World)
  : Outcome * World :=
  let '(s, w) := gs gid w in
  match py_int env (default (JInt 100) (payload !! "percent")) with
  | Some pct =>
      let w := put gid (set_volume (Z.max 0 (Z.min 200 pct) # 100) s) w in
      (Returned, publish gid (Some {["volume" := JInt pct]}) w)
  | None => (Returned, w)
  end.

(** The branch [action == "queue_remove"]. *)
Definition control_queue_remove (env : Env) (gid : Z) (payload : gmap string JVal)
    (w : World) : Outcome * World :=
  let '(s, w) := gs gid w in
  match py_int env (default (JInt 0) (payload !! "index")) with
  | None => (Raised (ValueError "invalid literal for int()"), w)
  | Some idx =>
      if (1 <=? idx) && (idx <=? Z.of_nat (length (queue s))) then
        match list_pop (Z.to_nat (idx - 1)) (queue s) with
        | Some (_, q) =>
            let s := set_queue q s in
            (Returned,
             publish gid (Some (_snapshot_state (export_limit env) (clock env 0%nat) s))
               (put gid s w))
        | None => (Raised (IndexError "pop index out of range"), w)
        end
      else (Returned, w)
  end.

(** The branch [action == "queue_move"]. *)
Definition control_queue_move (env : Env) (gid : Z) (payload : gmap string JVal)
    (w : World) : Outcome * World :=
  let '(s, w) := gs gid w in
  match py_int env (default (JInt 0) (payload !! "src_index")) with
  | None => (Raised (ValueError "invalid literal for int()"), w)
  | Some src =>
      match py_int env (default (JInt 0) (payload !! "dst_index")) with
      | None => (Raised (ValueError "invalid literal for int()"), w)
      | Some dst =>
          let n := Z.of_nat (length (queue s)) in
          if (1 <=? src) && (src <=? n) && ((1 <=? dst) && (dst <=? n)) then
            match list_pop (Z.to_nat (src - 1)) (queue s) with
            | Some (t, q) =>
                let s := set_queue (list_insert_at (Z.to_nat (dst - 1)) t q) s in
                (Returned,
                 publish gid (Some (_snapshot_state (export_limit env) (clock env 0%nat) s))
                   (put gid s w))
            | None => (Raised (IndexError "pop index out of range"), w)
            end
          else (Returned, w)
      end
  end.

(** *** The idle reaper *)

(** The body of the loop of [_idle_disconnect] for one entry [gid] of
    [self.states]; [guild env] is the answer of [bot.get_guild(gid)]. The
    clock is read once to stamp [idle_since] when that is still zero, and
    once more for the comparison with the 120 second threshold. *)
Definition _idle_disconnect (env : Env) (gid : Z) (w : World) : World :=
  match states w !! gid, guild env with
  | Some s, Some _ =>
      let playing :=
        match voice_client env with Some vc => is_playing vc | None => false end in
      match voice_client env with
      | Some _ =>
          if negb playing then
            let stamp := Qeq_bool (idle_since s) (0 # 1) in
            let s := if stamp then set_idle_since (clock env 0%nat) s else s in
            let t := clock env (if stamp then 1%nat else 0%nat) in
            if negb (Qle_bool (t - idle_since s)%Q (120 # 1))
               && bool_decide (queue s = []) then
              let w := emit VcDisconnect w in
              let w := publish gid None w in
              put gid (set_idle_since (0 # 1) (clear s)) w
            else put gid s w
          else put gid (set_idle_since (0 # 1) s) w
      | None => put gid (set_idle_since (0 # 1) s) w
      end
  | _, _ => w
  end.

(** [replay(inter)]: the current track goes back to the front of the
    queue; nothing is published. *)
Definition replay (env : Env) (w : World) : Outcome * World * list Reply :=
  match guild env with
  | None => (Raised (AttributeError "'NoneType' object has no attribute 'id'"), w, [])
  | Some gid =>
      let '(s, w) := gs gid w in
      match now s with
      | None => (Returned, w, [ReplyNothingToReplay])
      | Some cur => (Returned, put gid (set_queue (cur :: queue s) s) w, [ReplyReplayQueued])
      end
  end.

(** The branch [action == "loop"] of the watcher: a toggle between OFF and
    ONE ([LoopMode.OFF if st.loop else LoopMode.ONE]). *)
Definition control_loop (gid : Z) (w : World) : Outcome * World :=
  let '(s, w) := gs gid w in
  let s := set_loop (if loop s =? 0 then LoopMode.ONE else LoopMode.OFF) s in
  (Returned,
   publish gid (Some {["loop" := JBool (negb (loop s =? LoopMode.OFF))]}) (put gid s w)).

(** The branch [action == "queue_clear"]. *)
Definition control_queue_clear (env : Env) (gid : Z) (w : World) : Outcome * World :=
  let '(s, w) := gs gid w in
  let s := set_queue [] s in
  (Returned,
   publish gid (Some (_snapshot_state (export_limit env) (clock env 0%nat) s)) (put gid s w)).

(** The branch [action == "queue_play_index"]: the chosen track is moved
    to the front, the voice client is stopped and [play_next] is called
    as for a skip. [env] answers for the stand-in interaction the watcher
    builds for the guild. *)
Definition control_queue_play_index (fuel : nat) (env : Env) (gid : Z)
    (payload : gmap string JVal) (w : World) : Outcome * World :=
  let '(s, w) := gs gid w in
  match py_int env (default (JInt 0) (payload !! "index")) with
  | None => (Raised (ValueError "invalid literal for int()"), w)
  | Some idx =>
      if (1 <=? idx) && (idx <=? Z.of_nat (length (queue s))) then
        match list_pop (Z.to_nat (idx - 1)) (queue s) with
        | Some (track, q) =>
            let w := put gid (set_queue (list_insert_at 0 track q) s) w in
            let w := match voice_client env with
                     | Some _ => emit VcStop w
                     | None => w
                     end in
            play_next fuel env true w
        | None => (Raised (IndexError "pop index out of range"), w)
        end
      else (Returned, w)
  end.

(** [t.requested_by = 0] *)
Definition requested_by_nobody (t : Track) : Track :=
  mkTrack (title t) (webpage_url t) (stream_url t) (duration t) 0 (source t)
    (thumb t) (uploader t).

(** [for t in reversed(tracks): t.requested_by = 0; st.queue.appendleft(t)] *)
Definition appendleft_reversed (tracks queue : list Track) : list Track :=
  fold_left (fun q t => requested_by_nobody t :: q) (rev tracks) queue.

(** The branch [action == "playtop"], for a non-empty query [q] (an empty
    one does nothing): the tracks found go to the front of the queue;
    [play_next] is called when nothing is current; the snapshot is
    published last. *)
Definition control_playtop (fuel : nat) (env : Env) (gid : Z) (q : string) (w : World)
  : Outcome * World :=
  let '(s, w) := gs gid w in
  if String.eqb q "" then (Returned, w)
  else
    match search env q with
    | inl e => (Raised (ExternalError e), w)
    | inr tracks =>
        let w := put gid (set_queue (appendleft_reversed tracks (queue s)) s) w in
        let finish (reading : nat) (w : World) : Outcome * World :=
          let '(s, w) := gs gid w in
          (Returned,
           publish gid (Some (_snapshot_state (export_limit env) (clock env reading) s)) w) in
        match now s with
        | Some _ => finish 0%nat w
        | None =>
            match play_next fuel env false w with
            | (Returned, w) => finish 2%nat w
            | (o, w) => (o, w)
            end
        end
  end.

(** [queue(inter, page)]: ten tracks a page; the page asked for is brought
    into [1, pages]; the fields are numbered from the position in the
    queue. *)
Definition queue (env : Env) (page : Z) (w : World) : Outcome * World * list Reply :=
  match guild env with
  | None => (Raised (AttributeError "'NoneType' object has no attribute 'id'"), w, [])
  | Some gid =>
      let '(s, w) := gs gid w in
      let items := queue s in
      match items with
      | [] => (Returned, w, [ReplyQueueEmpty])
      | _ :: _ =>
          let per := 10 in
          let pages := Z.max 1 (py_ceil_div (Z.of_nat (length items)) per) in
          let page := Z.max 1 (Z.min pages page) in
          let start := (page - 1) * per in
          let shown := take (Z.to_nat per) (drop (Z.to_nat start) items) in
          let fields :=
            imap (fun i t => mkQueueField (start + 1 + Z.of_nat i) (title t) (duration_str t))
              shown in
          (Returned, w, [ReplyQueuePage page pages fields])
      end
  end.

(** [volume(inter, percent)]. The parameter is declared
    [app_commands.Range[int, 0, 200]]; the body makes no test of its own
    and stores [percent / 100.0] for the integer it is given. *)
Definition volume (env : Env) (percent : Z) (w : World) : Outcome * World :=
  match guild env with
  | None => (Raised (AttributeError "'NoneType' object has no attribute 'id'"), w)
  | Some gid =>
      let '(s, w) := gs gid w in
      let w := put gid (set_volume (percent # 100) s) w in
      let w := publish gid (Some {["volume" := JInt percent]}) w in
      (Returned, emit (ResponseSend (MsgVolume percent)) w)
  end.

End MusicPower.

(** ** FFmpeg options *)

(** [max(a, b)] and [min(a, b)] of two floats: the first argument wins a
    tie. *)
Definition py_max (a b : Q) : Q := if Qle_bool b a then a else b.
Definition py_min (a b : Q) : Q := if Qle_bool a b then a else b.

(** [filters.get(filter_id)] *)
Definition ffmpeg_filter (filter_id : option string) : option string :=
  match filter_id with
  | None => Some ""
  | Some f =>
      if String.eqb f "bassboost" then Some "bass=g=8,dynaudnorm=f=200"
      else if String.eqb f "nightcore" then Some "asetrate=48000*1.25,aresample=48000,atempo=1.0"
      else if String.eqb f "vaporwave" then Some "asetrate=44100*0.8,aresample=44100,atempo=1.0"
      else if String.eqb f "karaoke" then Some "stereotools=mlev=0.03"
      else if String.eqb f "echo" then Some "aecho=0.6:0.6:30:0.25"
      else None
  end.

(** [",".join(chain)] *)
Fixpoint join_comma (chain : list string) : string :=
  match chain with
  | [] => ""
  | [x] => x
  | x :: rest => x +:+ "," +:+ join_comma rest
  end.

(** [_ffmpeg_options(filter_id, volume)]; [fmt_2f] is the formatting
    [f"{volume:.2f}"] of a float. *)
Definition _ffmpeg_options (fmt_2f : Q -> string) (filter_id : option string) (volume : Q)
  : list string * list string :=
  let before :=
    ["-reconnect"; "1"; "-reconnect_streamed"; "1"; "-reconnect_delay_max"; "5"; "-nostdin"] in
  let chain :=
    if str_truthy filter_id && str_truthy (ffmpeg_filter filter_id)
    then [default "" (ffmpeg_filter filter_id)] else [] in
  let volume := py_max (0 # 1) (py_min (2 # 1) volume) in
  let chain := chain ++ ["volume=" +:+ fmt_2f volume] in
  (before, ["-vn"; "-af"; join_comma chain; "-bufsize"; "64k"]).

(** ** The Lavalink backend *)

Inductive BackendError :=
| RuntimeError (msg : string)
| Upstream (msg : string).

(** A track as the node returns it. *)
Record Playable := mkPlayable {
  p_title : string;
  p_uri : option string;
  p_is_stream : bool;
  p_length : Z;               (* milliseconds *)
  p_author : option string
}.

(** The node and its library, as the backend sees them. *)
Record Node := mkNode {
  wavelink_available : bool;               (* WAVLINK_AVAILABLE *)
  node_connect : option string;            (* what Pool.connect raises *)
  url_search : string -> bool;             (* URL_REGEX.search(query) *)
  fetch_tracks : string -> string + list Playable
}.

Module LavalinkBackend.

(** [ensure_node(bot)] on the [ready] flag of the backend: the error, or
    the flag afterwards and whether a connection was made. *)
Definition ensure_node (node : Node) (ready : bool) : BackendError + bool * bool :=
  if negb (wavelink_available node) then
    inl (RuntimeError "wavelink не установлен. pip install -U wavelink")
  else if ready then inr (true, false)
  else
    match node_connect node with
    | None => inr (true, true)
    | Some e => inl (RuntimeError ("Не удалось подключиться к Lavalink: " +:+ e))
    end.

(** The [Track] built for one result; [int(t.length / 1000)] is exact for
    any length a node reports. *)
Definition to_track (t : Playable) : Track :=
  let uri := if str_truthy (p_uri t) then default "" (p_uri t) else "" in
  mkTrack (p_title t) uri uri
    (if p_is_stream t then 0 else Z.quot (p_length t) 1000)
    0 "lavalink" None (p_author t).

(** [search(query)]: the error or the tracks, and the [ready] flag
    afterwards. *)
Definition search (node : Node) (ready : bool) (query : string)
  : (BackendError + list Track) * bool :=
  match ensure_node node ready with
  | inl e => (inl e, ready)
  | inr (ready', _) =>
      let q := if url_search node query then query else "ytsearch:" +:+ query in
      match fetch_tracks node q with
      | inl e => (inl (Upstream e), ready')
      | inr results => (inr (to_track <$> take 100 results), ready')
      end
  end.

End LavalinkBackend.

(** ** The local backend *)

(** The fields [_make_track] reads from an entry of the extractor. *)
Record Entry := mkEntry {
  e_title : option string;
  e_webpage_url : option string;
  e_original_url : option string;
  e_url : option string;
  e_duration : option Q;
  e_thumbnail : option string;
  e_uploader : option string;
  e_channel : option string
}.

(** What [extract_info] returns: an entry, with or without a list of
    entries, some of which may be empty. *)
Record Info := mkInfo {
  info_entries : option (list (option Entry));
  info_self : Entry
}.

(** What [_extract_spotify] returns. *)
Record SpotifyInfo := mkSpotifyInfo {
  entries_titles : list string;
  single_title : option string
}.

(** yt-dlp and the two patterns, as the backend sees them. *)
Record Extractor := mkExtractor {
  ytdlp_installed : bool;                       (* ytdlp is not None *)
  spotify_search : string -> bool;              (* SPOTIFY_REGEX.search(query) *)
  url_regex_search : string -> bool;            (* URL_REGEX.search(query) *)
  _extract : string -> string + Info;
  _extract_spotify : string -> string + SpotifyInfo
}.

Module LocalBackend.

Definition untitled : string := "Без названия".

(** [_make_track(d)] *)
Definition _make_track (d : Entry) : Track :=
  let title := if str_truthy (e_title d) then default "" (e_title d) else untitled in
  let web := default "" (str_or (str_or (e_webpage_url d) (e_original_url d)) (Some "")) in
  let stream := default "" (str_or (e_url d) (Some web)) in
  let dur :=
    match e_duration d with
    | Some x => if Qeq_bool x (0 # 1) then 0 else py_int_of_float x
    | None => 0
    end in
  mkTrack title web stream dur 0 "yt" (e_thumbnail d) (str_or (e_uploader d) (e_channel d)).

(** The loop of the Spotify branch over the titles, with the search it
    calls for each of them as [lookup]: the first hit of every title that
    has one; an error of a lookup ends the search. *)
Fixpoint first_hits (lookup : string -> option (BackendError + list Track))
    (titles : list string) : option (BackendError + list Track) :=
  match titles with
  | [] => Some (inr [])
  | title :: rest =>
      match lookup ("ytsearch1:" +:+ title) with
      | None => None
      | Some (inl e) => Some (inl e)
      | Some (inr sub) =>
          match first_hits lookup rest with
          | None => None
          | Some (inl e) => Some (inl e)
          | Some (inr results) =>
              Some (inr (match sub with first :: _ => first :: results | [] => results end))
          end
      end
  end.

(** [search(query)]; [fuel] bounds the depth of the calls the Spotify
    branch makes to [search]; [None] is a lack of fuel. *)
Fixpoint search (fuel : nat) (x : Extractor) (query : string)
  {struct fuel} : option (BackendError + list Track) :=
  match fuel with
  | O => None
  | S fuel' =>
      if negb (ytdlp_installed x) then
        Some (inl (RuntimeError "yt-dlp не установлен. pip install -U yt-dlp"))
      else if spotify_search x query then
        match _extract_spotify x query with
        | inl e => Some (inl (Upstream e))
        | inr info =>
            let titles :=
              if str_truthy (single_title info)
              then default "" (single_title info) :: entries_titles info
              else entries_titles info in
            first_hits (search fuel' x) (take 100 titles)
        end
      else
        match _extract x (if url_regex_search x query then query
                          else "ytsearch1:" +:+ query) with
        | inl e => Some (inl (Upstream e))
        | inr info =>
            match info_entries info with
            | Some entries => Some (inr (_make_track <$> omap id entries))
            | None => Some (inr [_make_track (info_self info)])
            end
        end
  end.

End LocalBackend.

(** ** The admin panel *)

Module AdminApp.

Inductive PanelError :=
| Http (status : Z)
| Unhandled (msg : string).

(** The user kept in the session by the OAuth callback. *)
Record SessionUser := mkSessionUser {
  session_id : string;
  is_admin : bool
}.

(** Truthiness of a decoded JSON value. *)
Definition jval_truthy (v : JVal) : bool :=
  match v with
  | JNull => false
  | JBool b => b
  | JInt z => negb (z =? 0)
  | JFloat x => negb (Qeq_bool x (0 # 1))
  | JStr s => negb (String.eqb s "")
  | JQueue items => match items with [] => false | _ :: _ => true end
  end.

(** [get_state_for_guild(guild_id)]: the entry of the guild in the state
    file, or the empty document when there is none or the file cannot be
    read. *)
Definition get_state_for_guild (guild_id : Z)
    (file : option (gmap string (gmap string JVal))) : gmap string JVal :=
  match file with
  | Some data => default ∅ (data !! str guild_id)
  | None => ∅
  end.

(** [dj_state(guild_id)]: the document with its queue cut to
    [QUEUE_EXPORT_LIMIT]. The bot only ever writes a list there; a string
    would be sliced too (by bytes here), any other non-empty value cannot
    be sliced. *)
Definition dj_state (limit : Z) (guild_id : Z)
    (file : option (gmap string (gmap string JVal))) : PanelError + gmap string JVal :=
  let data := get_state_for_guild guild_id file in
  if bool_decide (data = ∅) then inr ∅
  else
    let queue :=
      match data !! "queue" with
      | Some v => if jval_truthy v then v else JQueue []
      | None => JQueue []
      end in
    match queue with
    | JQueue items => inr (<["queue" := JQueue (py_slice_to limit items)]> data)
    | JStr s =>
        inr (<["queue" := JStr (string_of_list_ascii
                                  (py_slice_to limit (list_ascii_of_string s)))]> data)
    | _ => inl (Unhandled "object is not subscriptable")
    end.

(** [dj_control(request)] up to the call of [write_control]: the error
    answered, or the action and payload that are written. [action] is
    [body.get("action")] ([JNull] when missing), [payload] is
    [body.get("payload") or {}]. *)
Definition dj_control (int_of : string -> option Z) (user : option SessionUser)
    (action : JVal) (payload : gmap string JVal)
  : PanelError + JVal * gmap string JVal :=
  match user with
  | None => inl (Http 401)
  | Some u =>
      let allowed :=
        match action with
        | JStr a => String.eqb a "play" || String.eqb a "playtop"
        | _ => false
        end in
      if negb (is_admin u) && negb allowed then inl (Http 403)
      else
        let given :=
          match payload !! "guild_id" with
          | Some v => jval_truthy v
          | None => false
          end in
        if given then inr (action, payload)
        else
          match int_of (session_id u) with
          | Some n => inr (action, <["guild_id" := JInt n]> payload)
          | None => inl (Unhandled "invalid literal for int()")
          end
  end.

End AdminApp.

(** ** Vocabulary of the properties *)

(** An environment in which the guild is known and every source that is
    asked for starts. *)
Record Healthy (gid : Z) (env : Env) : Prop := mkHealthy {
  healthy_guild : guild env = Some gid;
  healthy_connect : connect_player env = None;
  healthy_ffmpeg : forall t, ffmpeg_play env t = None;
  healthy_node : forall t e, node_play env t <> NodeFails e
}.

(** Successive natural completions: one [_after_finished] for each
    environment of the list. *)
Fixpoint completions (fuel : nat) (envs : list Env) (w : World) : World :=
  match envs with
  | [] => w
  | env :: envs' => completions fuel envs' (snd (MusicPower._after_finished fuel env w))
  end.

(** The track a guild is playing, and its queue. *)
Definition now_playing (gid : Z) (w : World) : option Track :=
  match states w !! gid with Some s => now s | None => None end.

Definition queue_of (gid : Z) (w : World) : list Track :=
  match states w !! gid with Some s => queue s | None => [] end.

(** Section 4.3 of the specification, steps 1 to 3, as a function on the
    session: replay under ONE unless forced; otherwise go idle on an empty
    queue, or pop the front and, under ALL and unless forced, append the
    track that was playing behind what is left. *)
Definition advance (forced : bool) (time : Q) (s : GuildState) : GuildState :=
  match now s with
  | Some cur =>
      if (loop s =? LoopMode.ONE) && negb forced then s
      else
        match queue s with
        | [] => set_idle_since time (set_now None s)
        | next :: rest =>
            set_now (Some next)
              (set_queue (if (loop s =? LoopMode.ALL) && negb forced
                          then rest ++ [cur] else rest) s)
        end
  | None =>
      match queue s with
      | [] => set_idle_since time (set_now None s)
      | next :: rest => set_now (Some next) (set_queue rest s)
      end
  end.

(** One step of a ring: the head goes behind the others. *)
Definition turn {A} (ring : list A) : list A :=
  match ring with
  | [] => []
  | x :: xs => xs ++ [x]
  end.

(** [max(0, min(200, pct))] *)
Definition clamp_percent (pct : Z) : Z := Z.max 0 (Z.min 200 pct).

(** The idle time the reaper compares with its threshold: measured from
    [idle_since], or from the stamp it has just set when that was zero. *)
Definition idle_duration (env : Env) (s : GuildState) : Q :=
  if Qeq_bool (idle_since s) (0 # 1)
  then (clock env 1%nat - clock env 0%nat)%Q
  else (clock env 0%nat - idle_since s)%Q.

(** The parts of what [watcher_read] returns. *)
Definition watcher_read_result_cursor (r : list string * nat * option string) : nat :=
  snd (fst r).
Definition watcher_read_result_file (r : list string * nat * option string)
  : option string := snd r.

(** [1 <= i <= len(q)], the indices the queue commands accept, and the
    list position they stand for. *)
Definition valid_index (i : Z) (q : list Track) : bool :=
  (1 <=? i) && (i <=? Z.of_nat (length q)).

Definition position (i : Z) : nat := Z.to_nat (i - 1).

(** The outcome of a removal at [index] from the queue [q] in the world
    [w]: that track alone is gone, or, for an index out of range, neither
    the sessions nor the state file have changed. *)
Definition removal_outcome (gid : Z) (index : Z) (q : list Track) (w w' : World) : Prop :=
  if valid_index index q
  then queue_of gid w' = delete (position index) q
  else states w' = states w /\ state_file w' = state_file w.

(** The outcome of a move from [src] to [dst]: the track that was at [src]
    is at [dst], the others are in the order they had, and nothing is lost;
    or, for an index out of range, nothing has changed. *)
Definition move_outcome (gid : Z) (src dst : Z) (q : list Track) (w w' : World) : Prop :=
  if valid_index src q && valid_index dst q
  then queue_of gid w' !! position dst = q !! position src
       /\ delete (position dst) (queue_of gid w') = delete (position src) q
       /\ length (queue_of gid w') = length q
  else states w' = states w /\ state_file w' = state_file w.

(** The condition under which the reaper evicts a session: the guild is
    known, its voice client is connected and not playing, the session has
    been idle for more than 120 seconds and nothing is queued. *)
Definition reaper_evicts (env : Env) (s : GuildState) : Prop :=
  guild env <> None
  /\ (exists vc, voice_client env = Some vc /\ is_playing vc = false)
  /\ (120 # 1 < idle_duration env s)%Q
  /\ queue s = [].

(** The document [play_next] publishes for the session [s'] it leaves
    behind: the snapshot, with the fields of the current track written a
    second time and the status forced to playing when there is one. *)
Definition published_payload (env : Env) (s' : GuildState) : gmap string JVal :=
  match now s' with
  | Some track =>
      <["status" := JStr "playing"]>
        (now_fields track (clock env 1%nat)
           (_snapshot_state (export_limit env) (clock env 0%nat) s'))
  | None => _snapshot_state (export_limit env) (clock env 0%nat) s'
  end.

(** [play_next] takes the current track again instead of the queue. *)
Definition replays (forced : bool) (s : GuildState) : bool :=
  match now s with
  | Some _ => (loop s =? LoopMode.ONE) && negb forced
  | None => false
  end.

(** What the completion callback searches for when the queue has run
    out: the radio query when one is set, else the title of the track that
    has just finished. *)
Definition autoplay_seed (s : GuildState) : option string :=
  if str_truthy (radio_query s) then radio_query s else title <$> now s.

Definition autoplay_query (seed : string) : string :=
  "ytsearch10:" +:+ seed +:+ " official audio".

(** [t.requested_by = inter.user.id] *)
Definition requested_by_user (uid : Z) (t : Track) : Track :=
  mkTrack (title t) (webpage_url t) (stream_url t) (duration t) uid (source t)
    (thumb t) (uploader t).

(** A raw line feed or carriage return inside a string; and a carriage
    return alone. *)
Fixpoint has_newline (s : string) : bool :=
  match s with
  | EmptyString => false
  | String c rest =>
      Ascii.eqb c MusicPower.LF || Ascii.eqb c MusicPower.CR || has_newline rest
  end.

Fixpoint has_cr (s : string) : bool :=
  match s with
  | EmptyString => false
  | String c rest => Ascii.eqb c MusicPower.CR || has_cr rest
  end.

Definition concat_lines (lines : list string) : string := foldr String.app "" lines.

Definition with_lf (record : string) : string := record +:+ String MusicPower.LF "".

(** The commands of a list written one after the other. *)
Definition write_all (records : list string) (file : option string) : option string :=
  foldl (fun f r => MusicPower._append_control r f) file records.

(** What every track built by the local backend satisfies. *)
Definition local_track_ok (t : Track) : Prop :=
  title t <> "" /\ source t = "yt" /\ requested_by t = 0
  /\ (webpage_url t <> "" -> stream_url t <> "").

(** ** Sample data *)

Module Sample.
Definition track (name : string) : Track :=
  mkTrack name ("https://example.org/watch?v=" +:+ name)
    ("https://cdn.example.org/" +:+ name) 180 0 "yt" None None.
Definition A : Track := track "A".
Definition B : Track := track "B".
Definition C : Track := track "C".

Definition vc_silent : VoiceClient := mkVoiceClient false false false.
Definition vc_playing : VoiceClient := mkVoiceClient true false false.

(** Guild 7, local backend, every source starts, searches find nothing. *)
Definition env (vc : option VoiceClient) : Env :=
  mkEnv (Some 7) vc true 42 (Some 9) false None
    (fun _ => None) (fun _ => NodeFound) (fun _ => inr []) 0%nat
    (fun _ => None) (fun n => inject_Z (1000 + Z.of_nat n)) 100.

(** The same, but FFmpeg cannot be started. *)
Definition env_broken : Env :=
  mkEnv (Some 7) (Some vc_silent) true 42 (Some 9) false None
    (fun _ => Some "ffmpeg was not found.") (fun _ => NodeFound) (fun _ => inr [])
    0%nat (fun _ => None) (fun n => inject_Z (1000 + Z.of_nat n)) 100.

Definition session (loop : Z) (now : option Track) (queue : list Track) : GuildState :=
  mkGuildState queue loop (1 # 1) None None (0 # 1) now false None.

Definition world (s : GuildState) : World := mkWorld {[ 7 := s ]} false None [].

(** A command line as the panel writes it:
    {"action": "skip", "payload": {"guild_id": 7}} *)
Definition quoted (s : string) : string :=
  String "034"%char "" +:+ s +:+ String "034"%char "".
Definition skip_record : string :=
  "{" +:+ quoted "action" +:+ ": " +:+ quoted "skip" +:+ ", " +:+ quoted "payload"
  +:+ ": {" +:+ quoted "guild_id" +:+ ": 7}}".

(** A state file in which guild 7 plays [A] and guild 8 is paused. *)
Definition published : option (gmap string (gmap string JVal)) :=
  Some (<["7" := _snapshot_state 100 (1000 # 1) (session LoopMode.OFF (Some A) [B])]>
        (<["8" := {["status" := JStr "paused"]}]> ∅)).
(** Like [env], with a backend that finds [B] and [C] for every query and
    a draw of 1. *)
Definition env_radio (vc : option VoiceClient) : Env :=
  mkEnv (Some 7) vc true 42 (Some 9) false None
    (fun _ => None) (fun _ => NodeFound) (fun _ => inr [B; C]) 1%nat
    (fun _ => None) (fun n => inject_Z (1000 + Z.of_nat n)) 100.
End Sample.

(** ** Basic facts *)

Section Basics.
Context (gid : Z).

Lemma gs_found (w : World) (s : GuildState) :
  states w !! gid = Some s -> gs gid w = (s, w).
Proof. intros H. unfold gs. now rewrite H. Qed.

Lemma put_lookup (s : GuildState) (w : World) : states (put gid s w) !! gid = Some s.
Proof. unfold put. simpl. apply lookup_insert_eq. Qed.

Lemma reconnect_player_ok (env : Env) (w : World) :
  connect_player env = None ->
  exists w', MusicPower.reconnect_player env w = inr w'
    /\ states w' = states w /\ lock_locked w' = lock_locked w
    /\ state_file w' = state_file w.
Proof.
  intros Hc. unfold MusicPower.reconnect_player. rewrite Hc.
  destruct (voice_client env) as [vc|]; [|eauto].
  destruct (lavalink env && negb (is_player vc) && user_in_voice env); eauto.
Qed.

(** Entering [play_next] while the lock is held never gets past the
    [async with]. *)
Lemma play_next_blocked (n : nat) (env : Env) (forced : bool) (w : World) (s : GuildState) :
  guild env = Some gid -> connect_player env = None ->
  lock_locked w = true -> states w !! gid = Some s ->
  exists w', MusicPower.play_next (S n) env forced w = (Blocked, w')
    /\ states w' = states w /\ lock_locked w' = true
    /\ state_file w' = state_file w.
Proof.
  intros Hg Hc Hl Hs. simpl. unfold MusicPower.play_next_body. rewrite Hg.
  destruct (reconnect_player_ok env w Hc) as (w' & -> & Hst & Hlk & Hf).
  rewrite (gs_found w' s) by congruence.
  rewrite Hlk, Hl. exists w'. repeat split; congruence.
Qed.

(** What [start_track] leaves behind, whether the source starts or not. *)
Lemma start_track_spec (n : nat) (env : Env) (track : Track) (s : GuildState) (w : World) :
  guild env = Some gid -> connect_player env = None -> lock_locked w = true ->
  let r := MusicPower.start_track (MusicPower.play_next (S n) env false) env gid track s w in
  states (snd r) = <[gid := set_now (Some track) s]> (states w)
  /\ ((fst r = Returned /\ lock_locked (snd r) = false)
      \/ (fst r = Blocked /\ lock_locked (snd r) = true)).
Proof.
  intros Hg Hc Hl. unfold MusicPower.start_track.
  set (s1 := set_now (Some track) s).
  set (w1 := publish gid _ (put gid s1 w)).
  assert (Hst1 : states w1 = <[gid := s1]> (states w)) by reflexivity.
  assert (Hl1 : lock_locked w1 = true) by exact Hl.
  match goal with |- context [match ?st with inl _ => _ | inr _ => _ end] =>
    assert (Hcase : (exists w2, st = inr w2 /\ states w2 = states w1)
                    \/ (exists e, st = inl e)) end.
  { destruct (lavalink env).
    - unfold MusicPower._play_lavalink. destruct (node_play env track); eauto.
    - destruct (voice_client env); [|eauto].
      unfold MusicPower._play_local. destruct (ffmpeg_play env track); eauto. }
  destruct Hcase as [(w2 & -> & Hst2) | (e & ->)]; simpl.
  - split; [congruence | left; auto].
  - set (w2 := emit _ w1).
    destruct (play_next_blocked n env false w2 s1 Hg Hc Hl1) as (w3 & Hr & Hst3 & Hl3 & _).
    { change (states w1 !! gid = Some s1). rewrite Hst1. apply lookup_insert_eq. }
    simpl in Hr. rewrite Hr. simpl. split; [rewrite Hst3; exact Hst1 | right; auto].
Qed.

End Basics.

(** ** The playback engine refines [advance] *)

Section Engine.
Context (gid : Z).

Lemma set_now_same (s : GuildState) (cur : Track) :
  now s = Some cur -> set_now (Some cur) s = s.
Proof. destruct s; simpl; intros ->; reflexivity. Qed.

Lemma start_track_healthy (retry : World -> Outcome * World) (env : Env)
    (track : Track) (s : GuildState) (w : World) :
  Healthy gid env ->
  exists w', MusicPower.start_track retry env gid track s w = (Returned, w')
    /\ states w' = <[gid := set_now (Some track) s]> (states w)
    /\ lock_locked w' = false.
Proof.
  intros [Hg Hc Hf Hn]. unfold MusicPower.start_track.
  destruct (lavalink env).
  - unfold MusicPower._play_lavalink.
    destruct (node_play env track) eqn:E;
      [eexists; repeat split; reflexivity | eexists; repeat split; reflexivity |].
    now destruct (Hn track e).
  - destruct (voice_client env); [|eexists; repeat split; reflexivity].
    unfold MusicPower._play_local. rewrite Hf. eexists; repeat split; reflexivity.
Qed.

Lemma go_idle_spec (env : Env) (s : GuildState) (w : World) :
  exists w', MusicPower.go_idle env gid s w = (Returned, w')
    /\ states w' = <[gid := set_idle_since (clock env 0%nat) (set_now None s)]> (states w)
    /\ lock_locked w' = false.
Proof.
  unfold MusicPower.go_idle. eexists; split; [reflexivity|]. split; [|reflexivity].
  simpl. apply insert_insert_eq.
Qed.

(** Whatever the sources do, the session after [play_next] is the one
    [advance] describes; the call either returns with the lock free or
    is suspended for ever inside its own retry, holding the lock. *)
Lemma play_next_advance (n : nat) (env : Env) (forced : bool) (w : World) (s : GuildState) :
  guild env = Some gid -> connect_player env = None ->
  lock_locked w = false -> states w !! gid = Some s ->
  let r := MusicPower.play_next (S (S n)) env forced w in
  states (snd r) = <[gid := advance forced (clock env 0%nat) s]> (states w)
  /\ ((fst r = Returned /\ lock_locked (snd r) = false)
      \/ (fst r = Blocked /\ lock_locked (snd r) = true)).
Proof.
  intros Hg Hc Hl Hs.
  change (MusicPower.play_next (S (S n)) env forced w)
    with (MusicPower.play_next_body (MusicPower.play_next (S n) env false) env forced w).
  unfold MusicPower.play_next_body. rewrite Hg.
  destruct (reconnect_player_ok env w Hc) as (w' & -> & Hst & Hlk & Hf).
  rewrite (gs_found gid w' s) by congruence.
  rewrite Hlk, Hl. rewrite <- Hst.
  assert (Hl' : lock_locked (set_lock true w') = true) by reflexivity.
  pose proof (fun track s0 =>
    start_track_spec gid n env track s0 (set_lock true w') Hg Hc Hl') as Hstart.
  unfold advance.
  destruct (now s) as [cur|] eqn:Hnow.
  - destruct ((loop s =? LoopMode.ONE) && negb forced) eqn:Hone.
    + rewrite <- (set_now_same s cur Hnow) at 2. exact (Hstart cur s).
    + destruct (queue s) as [|next rest] eqn:Hq.
      * destruct (go_idle_spec env s (set_lock true w')) as (w2 & -> & Hst2 & Hl2).
        simpl. split; [exact Hst2 | left; auto].
      * simpl. rewrite Hnow.
        destruct ((loop s =? LoopMode.ALL) && negb forced).
        -- exact (Hstart next (set_queue (rest ++ [cur]) s)).
        -- exact (Hstart next (set_queue rest s)).
  - destruct (queue s) as [|next rest] eqn:Hq.
    + destruct (go_idle_spec env s (set_lock true w')) as (w2 & -> & Hst2 & Hl2).
      simpl. split; [exact Hst2 | left; auto].
    + simpl. rewrite Hnow. exact (Hstart next (set_queue rest s)).
Qed.

(** When every source starts, [play_next] returns and frees the lock. *)
Lemma play_next_healthy (n : nat) (env : Env) (forced : bool) (w : World) (s : GuildState) :
  Healthy gid env -> lock_locked w = false -> states w !! gid = Some s ->
  exists w', MusicPower.play_next (S n) env forced w = (Returned, w')
    /\ states w' = <[gid := advance forced (clock env 0%nat) s]> (states w)
    /\ lock_locked w' = false.
Proof.
  intros Hh Hl Hs. pose proof Hh as [Hg Hc _ _].
  change (MusicPower.play_next (S n) env forced w)
    with (MusicPower.play_next_body (MusicPower.play_next n env false) env forced w).
  unfold MusicPower.play_next_body. rewrite Hg.
  destruct (reconnect_player_ok env w Hc) as (w' & -> & Hst & Hlk & Hf).
  rewrite (gs_found gid w' s) by congruence.
  rewrite Hlk, Hl. rewrite <- Hst.
  pose proof (fun track s0 =>
    start_track_healthy (MusicPower.play_next n env false) env track s0
      (set_lock true w') Hh) as Hstart.
  unfold advance.
  destruct (now s) as [cur|] eqn:Hnow.
  - destruct ((loop s =? LoopMode.ONE) && negb forced) eqn:Hone.
    + destruct (Hstart cur s) as (w2 & E & Hs2 & Hl2).
      rewrite (set_now_same s cur Hnow) in Hs2. exists w2. auto.
    + destruct (queue s) as [|next rest] eqn:Hq.
      * exact (go_idle_spec env s (set_lock true w')).
      * simpl. rewrite Hnow.
        destruct ((loop s =? LoopMode.ALL) && negb forced).
        -- exact (Hstart next (set_queue (rest ++ [cur]) s)).
        -- exact (Hstart next (set_queue rest s)).
  - destruct (queue s) as [|next rest] eqn:Hq.
    + exact (go_idle_spec env s (set_lock true w')).
    + simpl. rewrite Hnow. exact (Hstart next (set_queue rest s)).
Qed.

(** With something queued, the completion callback is [play_next]. *)
Lemma after_finished_queued (fuel : nat) (env : Env) (w : World) (s : GuildState) :
  guild env = Some gid -> states w !! gid = Some s -> queue s <> [] ->
  MusicPower._after_finished fuel env w = MusicPower.play_next fuel env false w.
Proof.
  intros Hg Hs Hq. unfold MusicPower._after_finished.
  rewrite Hg, (gs_found gid w s Hs). destruct (queue s); [congruence | reflexivity].
Qed.

End Engine.

(** ** Fuel *)

(** A retry is made with the lock held: it is suspended, or the
    reconnection raises; it never comes back for more fuel. *)
Lemma retry_outcome (n : nat) (env : Env) (gid : Z) (w : World) :
  guild env = Some gid -> lock_locked w = true ->
  fst (MusicPower.play_next (S n) env false w) = Blocked
  \/ exists e, fst (MusicPower.play_next (S n) env false w) = Raised e.
Proof.
  intros Hg Hl. simpl. unfold MusicPower.play_next_body. rewrite Hg.
  destruct (MusicPower.reconnect_player env w) as [e|w1] eqn:E; [right; eauto|].
  left. assert (H1 : lock_locked w1 = true).
  { unfold MusicPower.reconnect_player in E.
    destruct (voice_client env) as [vc|]; [|congruence].
    destruct (lavalink env && negb (is_player vc) && user_in_voice env); [|congruence].
    destruct (connect_player env); [discriminate|]. inversion E. exact Hl. }
  unfold gs. destruct (states w1 !! gid); simpl; now rewrite H1.
Qed.

(** Two units of fuel are enough for any call of [play_next]. *)
Lemma play_next_enough_fuel (n : nat) (env : Env) (forced : bool) (w : World) :
  fst (MusicPower.play_next (S (S n)) env forced w) <> OutOfFuel.
Proof.
  change (MusicPower.play_next (S (S n)) env forced w)
    with (MusicPower.play_next_body (MusicPower.play_next (S n) env false) env forced w).
  unfold MusicPower.play_next_body.
  destruct (guild env) as [gid|] eqn:Hg; [|discriminate].
  destruct (MusicPower.reconnect_player env w) as [e|w1]; [discriminate|].
  destruct (gs gid w1) as [s w2].
  destruct (lock_locked w2); [discriminate|].
  assert (Hstart : forall track s0,
            fst (MusicPower.start_track (MusicPower.play_next (S n) env false) env gid
                   track s0 (set_lock true w2)) <> OutOfFuel).
  { intros track s0. unfold MusicPower.start_track.
    match goal with |- context [match ?st with inl _ => _ | inr _ => _ end] =>
      destruct st as [e|w3] end; [|discriminate].
    match goal with |- context [MusicPower.play_next (S n) env false ?x] =>
      destruct (retry_outcome n env gid x Hg eq_refl) as [H | [e' H]];
      destruct (MusicPower.play_next (S n) env false x) as [o w4] end;
      simpl in H; subst o; discriminate. }
  destruct (match now s with
            | Some cur =>
                if (loop s =? LoopMode.ONE) && negb forced then Some cur else None
            | None => None
            end); [apply Hstart|].
  destruct (queue s); [discriminate | apply Hstart].
Qed.

(** ** Rings *)

Section Rings.
Context {A : Type}.
Implicit Types l : list A.

Lemma turn_rotate (n : nat) l : turn (rotate n l) = rotate (S n) l.
Proof.
  destruct l as [|x xs];
    [unfold rotate; rewrite !drop_nil, !take_nil; reflexivity|].
  set (l := x :: xs). assert (Hlen : (0 < length l)%nat) by (simpl; lia).
  clearbody l. clear x xs. unfold rotate.
  pose proof (Nat.mod_upper_bound n (length l) ltac:(lia)) as Hk.
  set (k := (n `mod` length l)%nat) in *.
  assert (HS : (S n `mod` length l)%nat =
               if decide (S k = length l) then 0%nat else S k).
  { pose proof (Nat.div_mod_eq n (length l)) as Hdm. fold k in Hdm.
    case_decide as Hd; symmetry.
    - apply (Nat.mod_unique _ _ (S (n / length l))); lia.
    - apply (Nat.mod_unique _ _ (n / length l)); lia. }
  rewrite HS.
  destruct (lookup_lt_is_Some_2 l k Hk) as [y Hy].
  rewrite (drop_S l y k Hy). simpl.
  rewrite <- app_assoc, <- (take_S_r l k y Hy).
  case_decide as Hd; [|reflexivity].
  rewrite Hd, drop_all, firstn_all. simpl. now rewrite app_nil_r.
Qed.

Lemma iter_turn_rotate (n : nat) l : Nat.iter n turn l = rotate n l.
Proof.
  induction n as [|n IH]; simpl.
  - unfold rotate. rewrite Nat.Div0.mod_0_l. simpl. now rewrite app_nil_r.
  - rewrite IH. apply turn_rotate.
Qed.

Lemma rotate_head (n : nat) l :
  l <> [] -> rotate n l !! 0%nat = l !! (n `mod` length l)%nat.
Proof.
  intros Hl. assert (Hlen : (0 < length l)%nat) by (destruct l; simpl; [congruence | lia]).
  pose proof (Nat.mod_upper_bound n (length l) ltac:(lia)) as Hk.
  unfold rotate. rewrite lookup_app_l by (rewrite length_drop; lia).
  rewrite lookup_drop. f_equal. lia.
Qed.

End Rings.

(** ** Successive completions *)

Section Completions.
Context (gid : Z) (n : nat).

Lemma completions_all (envs : list Env) :
  forall (w : World) (s : GuildState) (cur : Track),
    Forall (Healthy gid) envs -> lock_locked w = false ->
    states w !! gid = Some s -> loop s = LoopMode.ALL ->
    now s = Some cur -> queue s <> [] ->
    exists s' c,
      states (completions (S n) envs w) !! gid = Some s'
      /\ lock_locked (completions (S n) envs w) = false
      /\ now s' = Some c
      /\ c :: queue s' = Nat.iter (length envs) turn (cur :: queue s)
      /\ volume s' = volume s /\ loop s' = loop s.
Proof.
  induction envs as [|env envs IH]; intros w s cur Hall Hl Hs Hloop Hnow Hq.
  - exists s, cur. simpl. repeat split; auto.
  - apply Forall_cons in Hall as [Hh Hall]. pose proof Hh as [Hg _ _ _].
    simpl completions. rewrite (after_finished_queued gid (S n) env w s Hg Hs Hq).
    destruct (play_next_healthy gid n env false w s Hh Hl Hs) as (w1 & -> & Hst1 & Hl1).
    simpl snd. unfold advance in Hst1. rewrite Hnow, Hloop in Hst1. simpl in Hst1.
    destruct (queue s) as [|next rest] eqn:Eq; [congruence|].
    set (s1 := set_now (Some next) (set_queue (rest ++ [cur]) s)) in Hst1.
    assert (Hs1 : states w1 !! gid = Some s1) by (rewrite Hst1; apply lookup_insert_eq).
    destruct (IH w1 s1 next Hall Hl1 Hs1 Hloop eq_refl) as (s' & c & H1 & H2 & H3 & H4 & H5 & H6).
    { simpl. destruct rest; discriminate. }
    exists s', c. repeat split; try assumption.
    rewrite H4. simpl length. rewrite Nat.iter_succ_r. reflexivity.
Qed.


End Completions.

(** ** Loop modes *)

(** C1. Under [LoopMode.ALL], with a track [cur] playing and a queue
    [next :: rest]: a natural advance makes [next] the track playing and
    leaves [rest ++ [cur]] queued, whether the source starts or not; over
    any number of natural completions whose sources start, the ring formed
    by the track playing and the queue turns by one each time, so the
    track playing after [k] completions is the [k mod len]-th of the ring,
    something is always playing and the queue keeps its length (a queue of
    one track never stalls); and from an idle session whose queue is
    [cur :: next :: rest] (such as [A; B; C]) the first advance plays [cur]
    and the completions that follow go round the queue in order. *)
Theorem loop_all_requeues_finished_track
    (gid : Z) (fuel : nat) (envs : list Env) (env : Env) (w : World)
    (s : GuildState) (cur next : Track) (rest : list Track) :
  Forall (Healthy gid) envs ->
  guild env = Some gid -> connect_player env = None ->
  lock_locked w = false -> states w !! gid = Some s ->
  loop s = LoopMode.ALL -> now s = Some cur -> queue s = next :: rest ->
  let ring := cur :: next :: rest in
  (let w1 := snd (MusicPower.play_next (S (S fuel)) env false w) in
   now_playing gid w1 = Some next /\ queue_of gid w1 = rest ++ [cur])
  /\ (let wk := completions (S fuel) envs w in
      lock_locked wk = false
      /\ now_playing gid wk = ring !! (length envs `mod` length ring)%nat
      /\ is_Some (now_playing gid wk)
      /\ length (queue_of gid wk) = length (next :: rest))
  /\ (forall (w0 : World) (s0 : GuildState) (env0 : Env),
        Healthy gid env0 -> lock_locked w0 = false -> states w0 !! gid = Some s0 ->
        loop s0 = LoopMode.ALL -> now s0 = None -> queue s0 = ring ->
        let w1 := snd (MusicPower.play_next (S fuel) env0 false w0) in
        now_playing gid w1 = Some cur
        /\ now_playing gid (completions (S fuel) envs w1)
           = ring !! (length envs `mod` length ring)%nat).
Proof.
  intros Hall Hg Hc Hl Hs Hloop Hnow Hq ring.
  assert (Hring : forall (wa : World) (sa : GuildState),
             lock_locked wa = false -> states wa !! gid = Some sa ->
             loop sa = LoopMode.ALL -> now sa = Some cur -> queue sa = next :: rest ->
             let wk := completions (S fuel) envs wa in
             lock_locked wk = false
             /\ now_playing gid wk = ring !! (length envs `mod` length ring)%nat
             /\ is_Some (now_playing gid wk)
             /\ length (queue_of gid wk) = length (next :: rest)).
  { intros wa sa Hla Hsa Hloopa Hnowa Hqa wk.
    destruct (completions_all gid fuel envs wa sa cur Hall Hla Hsa Hloopa Hnowa)
      as (s' & c & H1 & H2 & H3 & H4 & _); [rewrite Hqa; discriminate|].
    rewrite Hqa in H4. fold ring in H4. rewrite iter_turn_rotate in H4.
    subst wk. unfold now_playing, queue_of. rewrite H1, H3.
    repeat split; [exact H2 | | eauto |].
    - rewrite <- rotate_head by discriminate. rewrite <- H4. reflexivity.
    - apply (f_equal length) in H4. rewrite length_rotate in H4.
      simpl in H4 |- *. lia. }
  split; [|split].
  - destruct (play_next_advance gid fuel env false w s Hg Hc Hl Hs) as [Hst _].
    cbv zeta. unfold now_playing, queue_of. rewrite Hst, lookup_insert_eq.
    unfold advance. rewrite Hnow, Hloop, Hq. split; reflexivity.
  - exact (Hring w s Hl Hs Hloop Hnow Hq).
  - intros w0 s0 env0 Hh0 Hl0 Hs0 Hloop0 Hnow0 Hq0.
    destruct (play_next_healthy gid fuel env0 false w0 s0 Hh0 Hl0 Hs0) as (w1 & -> & Hst1 & Hl1).
    cbv zeta. simpl snd. unfold advance in Hst1. rewrite Hnow0, Hq0 in Hst1.
    assert (Hs1 : states w1 !! gid = Some (set_now (Some cur) (set_queue (next :: rest) s0)))
      by (rewrite Hst1; apply lookup_insert_eq).
    split.
    + unfold now_playing. rewrite Hs1. reflexivity.
    + apply (Hring w1 _ Hl1 Hs1); [exact Hloop0 | reflexivity | reflexivity].
Qed.

Lemma sample_env_healthy (vc : option VoiceClient) : Healthy 7 (Sample.env vc).
Proof. split; [reflexivity | reflexivity | reflexivity | discriminate]. Qed.

Lemma loop_all_requeues_finished_track_witness :
  let e := Sample.env (Some Sample.vc_silent) in
  let playing := Sample.world (Sample.session LoopMode.ALL (Some Sample.A) [Sample.B; Sample.C]) in
  let idle := Sample.world (Sample.session LoopMode.ALL None [Sample.A; Sample.B; Sample.C]) in
  now_playing 7 (completions 1 [e; e; e; e] playing) = Some Sample.B
  /\ now_playing 7 (completions 1 [e; e; e; e] (snd (MusicPower.play_next 1 e false idle)))
     = Some Sample.B.
Proof.
  intros e playing idle.
  destruct (loop_all_requeues_finished_track 7 0 [e; e; e; e] e playing
              (Sample.session LoopMode.ALL (Some Sample.A) [Sample.B; Sample.C])
              Sample.A Sample.B [Sample.C])
    as (_ & (_ & H2 & _) & H3).
  - repeat constructor; apply sample_env_healthy.
  - reflexivity.
  - reflexivity.
  - reflexivity.
  - reflexivity.
  - reflexivity.
  - reflexivity.
  - reflexivity.
  - split; [exact H2|].
    apply (H3 idle (Sample.session LoopMode.ALL None [Sample.A; Sample.B; Sample.C]) e).
    + apply sample_env_healthy.
    + reflexivity.
    + reflexivity.
    + reflexivity.
    + reflexivity.
    + reflexivity.
Defined.

(** The boundary of the ring: when the track playing is the only one (the
    queue is empty, no autoplay, no radio query), its completion finds the
    queue empty before anything is appended and the session goes idle. *)
Lemma loop_all_lone_track_goes_idle (gid : Z) (n : nat) (env : Env) (w : World)
    (s : GuildState) (cur : Track) :
  Healthy gid env -> lock_locked w = false -> states w !! gid = Some s ->
  loop s = LoopMode.ALL -> now s = Some cur -> queue s = [] ->
  autoplay s = false -> radio_query s = None ->
  now_playing gid (snd (MusicPower._after_finished (S n) env w)) = None
  /\ queue_of gid (snd (MusicPower._after_finished (S n) env w)) = [].
Proof.
  intros Hh Hl Hs Hloop Hnow Hq Ha Hr. pose proof Hh as [Hg _ _ _].
  unfold MusicPower._after_finished. rewrite Hg, (gs_found gid w s Hs), Hq, Ha, Hr.
  simpl orb. cbv iota.
  destruct (play_next_healthy gid n env false w s Hh Hl Hs) as (w1 & -> & Hst & _).
  unfold now_playing, queue_of. simpl snd. rewrite Hst, lookup_insert_eq.
  unfold advance. rewrite Hnow, Hloop, Hq. simpl. split; [reflexivity | exact Hq].
Qed.



(** ** Failure of a source *)

(** C3. A session of guild 7 with [A] and [B] queued, whose sources FFmpeg
    cannot start: [play_next] sends the error to the caller and calls
    itself from inside [async with st.lock]; the inner call waits for the
    lock its caller holds, so the coroutine never resumes, the lock stays
    held, [A] remains the track "playing" although nothing streams, and
    [B] is never tried. *)
Theorem play_next_retry_waits_for_own_lock (fuel : nat) :
  let w := Sample.world (Sample.session LoopMode.OFF None [Sample.A; Sample.B]) in
  let r := MusicPower.play_next (S (S fuel)) Sample.env_broken false w in
  fst r = Blocked
  /\ lock_locked (snd r) = true
  /\ now_playing 7 (snd r) = Some Sample.A
  /\ queue_of 7 (snd r) = [Sample.B]
  /\ effects (snd r) = [FollowupSend (MsgPlaybackError "ffmpeg was not found.")].
Proof.
  cbv zeta.
  destruct (play_next_advance 7 fuel Sample.env_broken false
              (Sample.world (Sample.session LoopMode.OFF None [Sample.A; Sample.B]))
              (Sample.session LoopMode.OFF None [Sample.A; Sample.B])
              eq_refl eq_refl eq_refl eq_refl) as [Hst _].
  unfold now_playing, queue_of. rewrite Hst, lookup_insert_eq.
  repeat split; reflexivity.
Qed.

(** The same for any session and any track the local backend cannot
    start: the call that chose it is suspended with the lock held. *)
Lemma play_next_failing_source_blocks (gid : Z) (n : nat) (env : Env) (forced : bool)
    (w : World) (s : GuildState) (vc : VoiceClient) (track : Track) (e : string) :
  guild env = Some gid -> connect_player env = None ->
  lavalink env = false -> voice_client env = Some vc ->
  lock_locked w = false -> states w !! gid = Some s ->
  now (advance forced (clock env 0%nat) s) = Some track ->
  ffmpeg_play env track = Some e ->
  fst (MusicPower.play_next (S (S n)) env forced w) = Blocked
  /\ lock_locked (snd (MusicPower.play_next (S (S n)) env forced w)) = true.
Proof.
  intros Hg Hc Hlav Hvc Hl Hs Hnow Hff.
  change (MusicPower.play_next (S (S n)) env forced w)
    with (MusicPower.play_next_body (MusicPower.play_next (S n) env false) env forced w).
  unfold MusicPower.play_next_body. rewrite Hg.
  destruct (reconnect_player_ok env w Hc) as (w' & -> & Hst & Hlk & _).
  rewrite (gs_found gid w' s) by congruence. rewrite Hlk, Hl.
  assert (Hstart : forall s0,
            let r := MusicPower.start_track (MusicPower.play_next (S n) env false) env gid
                       track s0 (set_lock true w') in
            fst r = Blocked /\ lock_locked (snd r) = true).
  { intros s0. unfold MusicPower.start_track. rewrite Hlav, Hvc.
    unfold MusicPower._play_local. rewrite Hff.
    match goal with |- context [MusicPower.play_next (S n) env false ?x] =>
      destruct (play_next_blocked gid n env false x (set_now (Some track) s0) Hg Hc)
        as (w3 & Hr & _ & Hl3 & _); [reflexivity | apply lookup_insert_eq |] end.
    cbv zeta. rewrite Hr. split; [reflexivity | exact Hl3]. }
  unfold advance in Hnow.
  destruct (now s) as [cur|] eqn:Hcur.
  - destruct ((loop s =? LoopMode.ONE) && negb forced).
    + rewrite Hcur in Hnow. inversion Hnow; subst cur. apply Hstart.
    + destruct (queue s) as [|next rest]; [discriminate|].
      simpl in Hnow. inversion Hnow; subst next. simpl. rewrite Hcur.
      destruct ((loop s =? LoopMode.ALL) && negb forced); apply Hstart.
  - destruct (queue s) as [|next rest]; [discriminate|].
    simpl in Hnow. inversion Hnow; subst next. simpl. rewrite Hcur. apply Hstart.
Qed.

(** Once a call is suspended that way, every later call for the guild is
    suspended at once and changes nothing. *)
Lemma play_next_after_deadlock (fuel : nat) (forced : bool) :
  let w := Sample.world (Sample.session LoopMode.OFF None [Sample.A; Sample.B]) in
  let stuck := snd (MusicPower.play_next 2 Sample.env_broken false w) in
  MusicPower.play_next (S fuel) (Sample.env (Some Sample.vc_silent)) forced stuck
  = (Blocked, stuck).
Proof. reflexivity. Qed.

(** ** An empty search result *)

(** C9. [play] with a query for which the backend finds nothing: the
    coroutine raises [AttributeError] on [first.title], both when the voice
    client is silent (after [play_next] has run) and when it is playing;
    the session has then been modified ([last_text_channel_id], and
    [idle_since] in the silent case). *)
Theorem play_empty_result_raises (fuel : nat) (query : string) :
  let err := Raised (AttributeError "'NoneType' object has no attribute 'title'") in
  let silent := Sample.world (Sample.session LoopMode.OFF None []) in
  let busy := Sample.world (Sample.session LoopMode.OFF (Some Sample.A) []) in
  let r1 := MusicPower.play (S fuel) (Sample.env (Some Sample.vc_silent)) query silent in
  let r2 := MusicPower.play (S fuel) (Sample.env (Some Sample.vc_playing)) query busy in
  fst r1 = err /\ fst r2 = err
  /\ states (snd r1) !! 7
     = Some (mkGuildState [] LoopMode.OFF (1 # 1) None (Some 9) (inject_Z 1000) None false None)
  /\ states (snd r2) !! 7
     = Some (mkGuildState [] LoopMode.OFF (1 # 1) None (Some 9) (0 # 1) (Some Sample.A) false None).
Proof. repeat split; reflexivity. Qed.

(** Whatever the session and the voice client, [play] does not return
    normally when the search result is empty. *)
Lemma play_empty_result_never_returns (fuel : nat) (env : Env) (query : string) (w : World)
    (gid : Z) (vc : VoiceClient) :
  guild env = Some gid -> voice_client env = Some vc -> search env query = inr [] ->
  fst (MusicPower.play fuel env query w) <> Returned.
Proof.
  intros Hg Hv Hq. unfold MusicPower.play. rewrite Hg, Hv.
  destruct (gs gid (emit ResponseDefer w)) as [s w1]. rewrite Hq. simpl.
  destruct (negb (is_playing vc) && negb (is_paused vc)); [|discriminate].
  match goal with |- context [MusicPower.play_next ?f ?e ?b ?x] =>
    destruct (MusicPower.play_next f e b x) as [[] w2] end; discriminate.
Qed.

(** ** The control file *)

(** After a cycle that found the file, the file is empty and the cursor is
    the larger of the old cursor and the size the file had. *)
Lemma watcher_read_cursor (pos : nat) (content : string) :
  watcher_read_result_cursor (MusicPower.watcher_read pos (Some content))
    = Nat.max pos (String.length content)
  /\ watcher_read_result_file (MusicPower.watcher_read pos (Some content)) = Some "".
Proof. split; reflexivity. Qed.

(** Nothing is read from a file that ends at or before the cursor. *)
Lemma seek_past_end (pos : nat) (content : string) :
  (String.length content <= pos)%nat -> MusicPower.seek pos content = "".
Proof.
  revert content. induction pos as [|pos IH]; intros [|c rest] Hlen; simpl in *;
    try reflexivity; try lia.
  apply IH. lia.
Qed.

(** X25. A command no longer than the cursor, appended to the emptied file, is
    thrown away unread by the next cycle, which leaves the cursor where it
    was. *)
Lemma watcher_drops_short_command (pos : nat) (record : string) :
  (String.length (record +:+ String MusicPower.LF "") <= pos)%nat ->
  MusicPower.watcher_read pos (MusicPower._append_control record (Some ""))
  = ([], pos, Some "").
Proof.
  intros Hlen. unfold MusicPower.watcher_read, MusicPower._append_control. simpl default.
  change ("" +:+ record +:+ String MusicPower.LF "") with (record +:+ String MusicPower.LF "").
  rewrite seek_past_end by exact Hlen.
  rewrite Nat.max_l by exact Hlen. reflexivity.
Qed.

(** C2. The panel writes a skip command for guild 7 (47 bytes with its
    line feed); the first cycle reads it and empties the file, but keeps
    the cursor at 47 instead of zero; a cycle without new writes reads
    nothing; the same command written again starts at offset zero of the
    emptied file, and the next cycle, reading from offset 47, returns no
    line and truncates the file: the command is lost. *)
Theorem watcher_cursor_not_reset :
  let line := Sample.skip_record +:+ String MusicPower.LF "" in
  let file1 := MusicPower._append_control Sample.skip_record None in
  let file3 := MusicPower._append_control Sample.skip_record (Some "") in
  file1 = Some line
  /\ MusicPower.watcher_read 0 file1 = ([line], 47%nat, Some "")
  /\ MusicPower.watcher_read 47 (Some "") = ([], 47%nat, Some "")
  /\ file3 = Some line
  /\ MusicPower.watcher_read 47 file3 = ([], 47%nat, Some "").
Proof. repeat split; reflexivity. Qed.

(** ** The state file *)

(** The entry stored for a guild is the payload itself. *)
Lemma update_state_stores_payload (gid : Z) (payload : gmap string JVal)
    (file : option (gmap string (gmap string JVal))) :
  _load_json_state (_update_state gid (Some payload) file) !! str gid = Some payload.
Proof. unfold _update_state, _save_json_state. simpl. apply lookup_insert_eq. Qed.

(** Entries of other guilds are kept by both operations. *)
Lemma update_state_other (gid : Z) (payload : option (gmap string JVal))
    (file : option (gmap string (gmap string JVal))) (key : string) :
  key <> str gid ->
  _load_json_state (_update_state gid payload file) !! key = _load_json_state file !! key.
Proof.
  intros Hk. unfold _update_state, _save_json_state. simpl.
  destruct payload; [apply lookup_insert_ne | apply lookup_delete_ne]; congruence.
Qed.

(** Removal deletes the entry of the guild. *)
Lemma update_state_removes (gid : Z) (file : option (gmap string (gmap string JVal))) :
  _load_json_state (_update_state gid None file) !! str gid = None.
Proof. unfold _update_state, _save_json_state. simpl. apply lookup_delete_eq. Qed.

(** C6. Guild 7 is playing [A] and its published snapshot has a title, a
    queue and a volume; [pause] publishes the partial payload
    [{"status": "paused"}], after which the stored document of guild 7 is
    that payload alone: the keys the payload does not mention are gone
    instead of unchanged. The entry of guild 8 is untouched. *)
Theorem update_state_replaces_document :
  let w := mkWorld {[ 7 := Sample.session LoopMode.OFF (Some Sample.A) [Sample.B] ]}
             false Sample.published [] in
  let before := _load_json_state (state_file w) in
  let after := _load_json_state
                 (state_file (snd (MusicPower.pause (Sample.env (Some Sample.vc_playing)) w))) in
  (exists doc, before !! "7" = Some doc
     /\ doc !! "title" = Some (JStr "A") /\ doc !! "queue_len" = Some (JInt 1)
     /\ doc !! "volume" = Some (JInt 100))
  /\ (exists doc, after !! "7" = Some doc
     /\ doc !! "status" = Some (JStr "paused")
     /\ doc !! "title" = None /\ doc !! "queue_len" = None /\ doc !! "volume" = None)
  /\ after !! "8" = before !! "8".
Proof.
  cbv zeta. split; [|split].
  - eexists. split; [reflexivity|]. repeat split; reflexivity.
  - eexists. split; [reflexivity|]. repeat split; reflexivity.
  - reflexivity.
Qed.

(** ** Clearing a session *)

(** C10. [clear] empties the queue and resets the loop mode, the filter,
    the current track, autoplay and the radio query; the volume, the last
    text channel and the idle stamp are the ones the session had. [stop]
    and [leave] apply it to the session of the guild and leave the lock as
    it was. *)
Theorem clear_keeps_volume (s : GuildState) (env : Env) (w : World) :
  (queue (clear s) = [] /\ loop (clear s) = LoopMode.OFF /\ filter_id (clear s) = None
   /\ now (clear s) = None /\ autoplay (clear s) = false /\ radio_query (clear s) = None)
  /\ (volume (clear s) = volume s
      /\ last_text_channel_id (clear s) = last_text_channel_id s
      /\ idle_since (clear s) = idle_since s)
  /\ lock_locked (snd (MusicPower.stop env w)) = lock_locked w
  /\ lock_locked (snd (MusicPower.leave env w)) = lock_locked w
  /\ match guild env with
     | Some gid =>
         states (snd (MusicPower.stop env w)) !! gid = Some (clear (fst (gs gid w)))
     | None => snd (MusicPower.stop env w) = w
     end.
Proof.
  split; [repeat split|split; [repeat split|]].
  assert (Hgs : forall g w0, lock_locked (snd (gs g w0)) = lock_locked w0)
    by (intros g w0; unfold gs; destruct (states w0 !! g); reflexivity).
  split; [|split].
  - unfold MusicPower.stop. destruct (guild env) as [gid|]; [|reflexivity].
    specialize (Hgs gid w). destruct (gs gid w) as [s0 w0]. simpl in *.
    destruct (MusicPower.guild_vc env) as [vc|]; [|exact Hgs].
    destruct (lavalink env && is_player vc); [exact Hgs|].
    destruct (is_playing vc || is_paused vc); exact Hgs.
  - unfold MusicPower.leave. destruct (guild env) as [gid|]; [|reflexivity].
    destruct (MusicPower.guild_vc env) as [vc|]; [|reflexivity].
    specialize (Hgs gid (emit VcDisconnect (emit ResponseDefer w))).
    destruct (gs gid (emit VcDisconnect (emit ResponseDefer w))) as [s0 w0].
    simpl in *. exact Hgs.
  - unfold MusicPower.stop. destruct (guild env) as [gid|]; [|reflexivity].
    destruct (gs gid w) as [s0 w0]. simpl.
    destruct (MusicPower.guild_vc env) as [vc|]; [|apply lookup_insert_eq].
    destruct (lavalink env && is_player vc); [apply lookup_insert_eq|].
    destruct (is_playing vc || is_paused vc); apply lookup_insert_eq.
Qed.

(** ** Volume *)

Lemma clamp_percent_range (pct : Z) : 0 <= clamp_percent pct <= 200.
Proof. unfold clamp_percent. lia. Qed.

Lemma percent_fraction_bounds (p : Z) : 0 <= p <= 200 -> (0 <= p # 100 /\ p # 100 <= 2)%Q.
Proof. intros Hp. unfold Qle. simpl. lia. Qed.

(** The body of the slash command stores [percent / 100] for whatever
    integer reaches it: the bounds are those declared on the parameter, not
    a test made by the body. *)
Lemma volume_body_stores_fraction (env : Env) (gid : Z) (w : World) (pct : Z) :
  guild env = Some gid ->
  exists s2, states (snd (MusicPower.volume env pct w)) !! gid = Some s2
             /\ volume s2 = (pct # 100)%Q.
Proof.
  intros Hg. unfold MusicPower.volume. rewrite Hg.
  destruct (gs gid w) as [s0 w0]. simpl.
  eexists. split; [apply lookup_insert_eq | reflexivity].
Qed.

(** C7. The [volume] command of the control file stores, for every
    integer [pct], the fraction [max(0, min(200, pct)) / 100], which lies
    between 0 and 2; for 250 that is 2. The slash command, for a value
    within the range 0..200 declared on its parameter, stores the same
    fraction. *)
Theorem volume_set_clamps (env : Env) (gid : Z) (payload : gmap string JVal)
    (w : World) (pct : Z) :
  guild env = Some gid ->
  (let w1 := snd (MusicPower.control_volume env gid (<["percent" := JInt pct]> payload) w) in
   exists s1, states w1 !! gid = Some s1
     /\ volume s1 = (clamp_percent pct # 100)%Q
     /\ (0 <= volume s1 /\ volume s1 <= 2)%Q)
  /\ (let w1 := snd (MusicPower.control_volume env gid (<["percent" := JInt 250]> payload) w) in
      exists s1, states w1 !! gid = Some s1 /\ (volume s1 == 2)%Q)
  /\ (0 <= pct <= 200 ->
      let w2 := snd (MusicPower.volume env pct w) in
      exists s2, states w2 !! gid = Some s2
        /\ volume s2 = (clamp_percent pct # 100)%Q
        /\ (0 <= volume s2 /\ volume s2 <= 2)%Q).
Proof.
  intros Hg.
  assert (Hctl : forall p,
             exists s1,
               states (snd (MusicPower.control_volume env gid (<["percent" := JInt p]> payload) w))
                 !! gid = Some s1
               /\ volume s1 = (clamp_percent p # 100)%Q).
  { intros p. unfold MusicPower.control_volume.
    destruct (gs gid w) as [s0 w0]. rewrite lookup_insert_eq. simpl.
    eexists. split; [apply lookup_insert_eq | reflexivity]. }
  split; [|split]; cbv zeta.
  - destruct (Hctl pct) as (s1 & H1 & H2). exists s1. split; [exact H1|]. split; [exact H2|].
    rewrite H2. apply percent_fraction_bounds, clamp_percent_range.
  - destruct (Hctl 250) as (s1 & H1 & H2). exists s1. split; [exact H1|].
    rewrite H2. reflexivity.
  - intros Hrange.
    destruct (volume_body_stores_fraction env gid w pct Hg) as (s2 & H1 & H2).
    exists s2. split; [exact H1|].
    replace (clamp_percent pct) with pct by (unfold clamp_percent; lia).
    split; [exact H2|]. rewrite H2. apply percent_fraction_bounds. exact Hrange.
Qed.

Lemma volume_set_clamps_witness :
  (exists s1,
     states (snd (MusicPower.control_volume (Sample.env None) 7 {["percent" := JInt 250]}
                    (Sample.world (Sample.session LoopMode.OFF None []))))
       !! 7 = Some s1
     /\ (volume s1 == 2)%Q)
  /\ (exists s2,
        states (snd (MusicPower.volume (Sample.env None) 150
                       (Sample.world (Sample.session LoopMode.OFF None []))))
          !! 7 = Some s2
        /\ volume s2 = (150 # 100)%Q).
Proof.
  destruct (volume_set_clamps (Sample.env None) 7 ∅
              (Sample.world (Sample.session LoopMode.OFF None [])) 150 eq_refl)
    as (_ & H & Hslash).
  split; [exact H|].
  destruct (Hslash ltac:(lia)) as (s2 & H1 & H2 & _).
  exists s2. split; [exact H1 | exact H2].
Defined.

(** ** Editing the queue *)

Section QueueEdits.
Context {A : Type}.
Implicit Types q : list A.

Lemma list_pop_in_range (i : nat) q :
  (i < length q)%nat ->
  exists x, q !! i = Some x /\ list_pop i q = Some (x, delete i q).
Proof.
  intros Hi. destruct (lookup_lt_is_Some_2 q i Hi) as [x Hx].
  exists x. split; [exact Hx|]. unfold list_pop. rewrite Hx.
  now rewrite delete_take_drop.
Qed.

Lemma list_insert_at_lookup (i : nat) (x : A) q :
  (i <= length q)%nat -> list_insert_at i x q !! i = Some x.
Proof.
  intros Hi. unfold list_insert_at.
  rewrite lookup_app_r by (rewrite length_take; lia).
  rewrite length_take. replace (i - i `min` length q)%nat with 0%nat by lia. reflexivity.
Qed.

Lemma list_insert_at_delete (i : nat) (x : A) q :
  (i <= length q)%nat -> delete i (list_insert_at i x q) = q.
Proof.
  intros Hi. unfold list_insert_at.
  rewrite delete_take_drop.
  rewrite take_app_le by (rewrite length_take; lia).
  rewrite take_take, Nat.min_id.
  rewrite drop_app_ge by (rewrite length_take; lia).
  rewrite length_take. replace (S i - i `min` length q)%nat with 1%nat by lia.
  simpl. rewrite drop_0. apply take_drop.
Qed.

Lemma list_insert_at_length (i : nat) (x : A) q :
  length (list_insert_at i x q) = S (length q).
Proof.
  unfold list_insert_at. rewrite length_app. simpl.
  rewrite length_take, length_drop. lia.
Qed.
End QueueEdits.

(** What it means for [q'] to be [q] with its element at [src] moved to
    position [dst] (both counted from zero): that element is at [dst], and
    without it both lists are the same. *)
Lemma moved_spec {A} (src dst : nat) (q : list A) (x : A) :
  (src < length q)%nat -> (dst < length q)%nat -> q !! src = Some x ->
  let q' := list_insert_at dst x (delete src q) in
  q' !! dst = q !! src /\ delete dst q' = delete src q /\ length q' = length q.
Proof.
  intros Hs Hd Hx q'. subst q'.
  assert (Hlen : length (delete src q) = (length q - 1)%nat).
  { pose proof (length_delete q src (ex_intro _ x Hx)). lia. }
  rewrite Hx. repeat split.
  - apply list_insert_at_lookup. lia.
  - apply list_insert_at_delete. lia.
  - rewrite list_insert_at_length. lia.
Qed.

Lemma valid_index_position (i : Z) (q : list Track) :
  valid_index i q = true -> (position i < length q)%nat.
Proof. unfold valid_index, position. intros H. apply andb_true_iff in H as [?%Z.leb_le ?%Z.leb_le]. lia. Qed.

Lemma remove_guard (i : Z) (q : list Track) :
  (i <? 1) || (Z.of_nat (length q) <? i) = negb (valid_index i q).
Proof.
  unfold valid_index.
  destruct (Z.ltb_spec i 1), (Z.ltb_spec (Z.of_nat (length q)) i),
    (Z.leb_spec 1 i), (Z.leb_spec i (Z.of_nat (length q))); simpl; try reflexivity; lia.
Qed.

Lemma move_guard (src dst : Z) (q : list Track) :
  (src <? 1) || (dst <? 1) || (Z.of_nat (length q) <? src) || (Z.of_nat (length q) <? dst)
  = negb (valid_index src q && valid_index dst q).
Proof.
  unfold valid_index.
  destruct (Z.ltb_spec src 1), (Z.ltb_spec dst 1),
    (Z.ltb_spec (Z.of_nat (length q)) src), (Z.ltb_spec (Z.of_nat (length q)) dst),
    (Z.leb_spec 1 src), (Z.leb_spec src (Z.of_nat (length q))),
    (Z.leb_spec 1 dst), (Z.leb_spec dst (Z.of_nat (length q)));
    simpl; try reflexivity; lia.
Qed.

(** C8. [remove] and [move], as slash commands and as the [queue_remove]
    and [queue_move] commands of the control file: with an index outside
    [1, len(queue)] nothing is changed; [remove] with a valid index deletes
    the track at that position and no other; [move] with valid indices puts
    the track of position [src] at position [dst] and keeps the others in
    their order. *)
Theorem remove_move_check_indices (env : Env) (gid : Z) (payload : gmap string JVal)
    (w : World) (s : GuildState) (index src dst : Z) :
  guild env = Some gid -> states w !! gid = Some s ->
  removal_outcome gid index (queue s) w (snd (MusicPower.remove env index w))
  /\ removal_outcome gid index (queue s) w
       (snd (MusicPower.control_queue_remove env gid (<["index" := JInt index]> payload) w))
  /\ move_outcome gid src dst (queue s) w (snd (MusicPower.move env src dst w))
  /\ move_outcome gid src dst (queue s) w
       (snd (MusicPower.control_queue_move env gid
               (<["src_index" := JInt src]> (<["dst_index" := JInt dst]> payload)) w)).
Proof.
  intros Hg Hs.
  assert (Hrem : valid_index index (queue s) = true ->
                 exists t, list_pop (position index) (queue s)
                           = Some (t, delete (position index) (queue s))).
  { intros Hv. destruct (list_pop_in_range (position index) (queue s)) as (t & _ & Ht);
      [now apply valid_index_position | eauto]. }
  assert (Hmov : valid_index src (queue s) && valid_index dst (queue s) = true ->
                 exists t, list_pop (position src) (queue s)
                           = Some (t, delete (position src) (queue s))
                   /\ move_outcome gid src dst (queue s) w
                        (put gid (set_queue (list_insert_at (position dst) t
                                               (delete (position src) (queue s))) s) w)).
  { intros Hv. pose proof Hv as Hv'. apply andb_true_iff in Hv' as [Hv1 Hv2].
    apply valid_index_position in Hv1, Hv2.
    destruct (list_pop_in_range (position src) (queue s) Hv1) as (t & Hx & Ht).
    exists t. split; [exact Ht|]. unfold move_outcome. rewrite Hv.
    unfold queue_of. rewrite put_lookup. simpl queue.
    exact (moved_spec (position src) (position dst) (queue s) t Hv1 Hv2 Hx). }
  repeat split.
  - unfold removal_outcome, MusicPower.remove. rewrite Hg, (gs_found gid w s Hs), remove_guard.
    destruct (valid_index index (queue s)) eqn:Hv; simpl; [|auto].
    destruct (Hrem eq_refl) as (t & Ht). unfold position in Ht. rewrite Ht. simpl. unfold queue_of. simpl.
    now rewrite lookup_insert_eq.
  - unfold removal_outcome, MusicPower.control_queue_remove.
    rewrite (gs_found gid w s Hs), lookup_insert_eq. simpl.
    fold (valid_index index (queue s)).
    destruct (valid_index index (queue s)) eqn:Hv; simpl; [|auto].
    destruct (Hrem eq_refl) as (t & Ht). unfold position in Ht. rewrite Ht. simpl. unfold queue_of. simpl.
    now rewrite lookup_insert_eq.
  - unfold MusicPower.move. rewrite Hg, (gs_found gid w s Hs). cbv zeta. rewrite move_guard.
    destruct (valid_index src (queue s) && valid_index dst (queue s)) eqn:Hv; simpl.
    + destruct (Hmov eq_refl) as (t & Ht & Hout). unfold position in Ht. rewrite Ht. simpl.
      unfold move_outcome in *. rewrite Hv in *. exact Hout.
    + unfold move_outcome. rewrite Hv. auto.
  - unfold MusicPower.control_queue_move.
    rewrite (gs_found gid w s Hs), lookup_insert_eq.
    rewrite lookup_insert_ne by discriminate. rewrite lookup_insert_eq. simpl.
    fold (valid_index src (queue s)). fold (valid_index dst (queue s)).
    destruct (valid_index src (queue s) && valid_index dst (queue s)) eqn:Hv; simpl.
    + destruct (Hmov eq_refl) as (t & Ht & Hout). unfold position in Ht. rewrite Ht. simpl.
      unfold move_outcome in *. rewrite Hv in *. exact Hout.
    + unfold move_outcome. rewrite Hv. auto.
Qed.

Lemma remove_move_check_indices_witness :
  let e := Sample.env (Some Sample.vc_playing) in
  let w := Sample.world (Sample.session LoopMode.OFF None [Sample.A; Sample.B; Sample.C]) in
  queue_of 7 (snd (MusicPower.remove e 2 w)) = [Sample.A; Sample.C]
  /\ states (snd (MusicPower.control_queue_remove e 7 {["index" := JInt 4]} w)) = states w
  /\ queue_of 7 (snd (MusicPower.move e 1 3 w)) !! 2%nat = Some Sample.A
  /\ states (snd (MusicPower.move e 0 3 w)) = states w.
Proof.
  intros e w.
  destruct (remove_move_check_indices e 7 ∅ w
              (Sample.session LoopMode.OFF None [Sample.A; Sample.B; Sample.C])
              2 1 3 eq_refl eq_refl) as (H1 & _ & H3 & _).
  destruct (remove_move_check_indices e 7 ∅ w
              (Sample.session LoopMode.OFF None [Sample.A; Sample.B; Sample.C])
              4 0 3 eq_refl eq_refl) as (_ & H2 & H4 & _).
  split; [exact H1|]. split; [exact (proj1 H2)|].
  split; [exact (proj1 H3) | exact (proj1 H4)].
Defined.

(** ** The idle reaper *)

Lemma set_idle_since_same (s : GuildState) : set_idle_since (idle_since s) s = s.
Proof. destruct s; reflexivity. Qed.

(** One pass of the reaper over a session either evicts it, and then
    [reaper_evicts] holds, or touches nothing but its idle stamp. *)
Lemma idle_disconnect_cases (env : Env) (gid : Z) (w : World) (s : GuildState) :
  states w !! gid = Some s ->
  (reaper_evicts env s
   /\ MusicPower._idle_disconnect env gid w
      = put gid (set_idle_since (0 # 1) (clear s)) (publish gid None (emit VcDisconnect w)))
  \/ (~ reaper_evicts env s
      /\ ((exists t, MusicPower._idle_disconnect env gid w = put gid (set_idle_since t s) w)
          \/ MusicPower._idle_disconnect env gid w = w)).
Proof.
  intros Hs. unfold MusicPower._idle_disconnect, reaper_evicts, idle_duration. rewrite Hs.
  destruct (guild env) as [g|]; [|right; split; [intros [H _]; congruence | now right]].
  destruct (voice_client env) as [vc|];
    [|right; split; [intros (_ & (vc & Hvc & _) & _); discriminate | left; eauto]].
  destruct (is_playing vc) eqn:Hp; simpl negb; cbv iota.
  { right. split; [|left; eauto].
    intros (_ & (vc' & Hvc & Hp') & _). congruence. }
  destruct (Qeq_bool (idle_since s) (0 # 1)) eqn:Hz; cbv iota zeta.
  - change (idle_since (set_idle_since (clock env 0%nat) s)) with (clock env 0%nat).
    change (queue (set_idle_since (clock env 0%nat) s)) with (queue s).
    destruct (Qle_bool (clock env 1%nat - clock env 0%nat) (120 # 1)) eqn:Hle; simpl negb.
    + right. split; [|left; eauto].
      intros (_ & _ & Hlt & _). apply Qle_bool_iff in Hle. now apply Qlt_not_le in Hlt.
    + destruct (bool_decide (queue s = [])) eqn:Hq; simpl andb; cbv iota.
      * left. apply bool_decide_eq_true in Hq. split; [|reflexivity].
        repeat split; [discriminate | eauto | | exact Hq].
        apply Qnot_le_lt. intros Hc. apply Qle_bool_iff in Hc. congruence.
      * right. apply bool_decide_eq_false in Hq. split; [|left; eauto].
        intros (_ & _ & _ & Hq'). contradiction.
  - destruct (Qle_bool (clock env 0%nat - idle_since s) (120 # 1)) eqn:Hle; simpl negb.
    + right. split; [|left; exists (idle_since s); now rewrite set_idle_since_same].
      intros (_ & _ & Hlt & _). apply Qle_bool_iff in Hle. now apply Qlt_not_le in Hlt.
    + destruct (bool_decide (queue s = [])) eqn:Hq; simpl andb; cbv iota.
      * left. apply bool_decide_eq_true in Hq. split; [|reflexivity].
        repeat split; [discriminate | eauto | | exact Hq].
        apply Qnot_le_lt. intros Hc. apply Qle_bool_iff in Hc. congruence.
      * right. apply bool_decide_eq_false in Hq.
        split; [|left; exists (idle_since s); now rewrite set_idle_since_same].
        intros (_ & _ & _ & Hq'). contradiction.
Qed.

(** C5. For a session [s] of guild [gid] visited by the reaper: when the
    voice client is connected and not playing, the idle time exceeds 120
    seconds and the queue is empty, the reaper disconnects the voice
    client, clears the session and removes the published snapshot; in
    every other case it disconnects nothing, leaves the state file alone
    and changes nothing in the session but its idle stamp; and whenever the
    voice client is playing the idle stamp is reset to zero. *)
Theorem idle_reaper_evicts_only_idle_empty (env : Env) (gid : Z) (w : World) (s : GuildState) :
  states w !! gid = Some s ->
  let w' := MusicPower._idle_disconnect env gid w in
  (reaper_evicts env s ->
     effects w' = effects w ++ [VcDisconnect]
     /\ states w' !! gid = Some (set_idle_since (0 # 1) (clear s))
     /\ state_file w' = _update_state gid None (state_file w)
     /\ _load_json_state (state_file w') !! str gid = None)
  /\ (~ reaper_evicts env s ->
        effects w' = effects w /\ state_file w' = state_file w
        /\ exists s', states w' !! gid = Some s'
             /\ queue s' = queue s /\ now s' = now s /\ loop s' = loop s
             /\ filter_id s' = filter_id s /\ autoplay s' = autoplay s
             /\ radio_query s' = radio_query s /\ volume s' = volume s)
  /\ (guild env <> None ->
      (exists vc, voice_client env = Some vc /\ is_playing vc = true) ->
      exists s', states w' !! gid = Some s' /\ idle_since s' = (0 # 1)%Q).
Proof.
  intros Hs w'. subst w'. split; [|split].
  - intros Hev.
    destruct (idle_disconnect_cases env gid w s Hs) as [[_ ->] | [Hn _]]; [|contradiction].
    repeat split.
    + apply lookup_insert_eq.
    + apply update_state_removes.
  - intros Hn.
    destruct (idle_disconnect_cases env gid w s Hs) as [[Hev _] | [_ [[t ->] | ->]]];
      [contradiction | |].
    + repeat split. exists (set_idle_since t s). split; [apply lookup_insert_eq|].
      repeat split.
    + repeat split. exists s. split; [exact Hs|]. repeat split.
  - intros Hg (vc & Hvc & Hp). unfold MusicPower._idle_disconnect. rewrite Hs, Hvc, Hp.
    destruct (guild env); [|congruence]. simpl.
    eexists. split; [apply lookup_insert_eq | reflexivity].
Qed.

Lemma idle_reaper_evicts_only_idle_empty_witness :
  let late : Env :=
    mkEnv (Some 7) (Some Sample.vc_silent) true 42 (Some 9) false None
      (fun _ => None) (fun _ => NodeFound) (fun _ => inr []) 0%nat
      (fun _ => None) (fun _ => inject_Z 1200) 100 in
  let idle := mkGuildState [] LoopMode.ALL (3 # 2) None None (1000 # 1) None true None in
  let queued := mkGuildState [Sample.B] LoopMode.ALL (3 # 2) None None (1000 # 1) None true None in
  effects (MusicPower._idle_disconnect late 7 (Sample.world idle)) = [VcDisconnect]
  /\ effects (MusicPower._idle_disconnect late 7 (Sample.world queued)) = []
  /\ exists s', states (MusicPower._idle_disconnect (Sample.env (Some Sample.vc_playing)) 7
                          (Sample.world idle)) !! 7 = Some s'
       /\ idle_since s' = (0 # 1)%Q.
Proof.
  intros late idle queued.
  destruct (idle_reaper_evicts_only_idle_empty late 7 (Sample.world idle) idle eq_refl)
    as (H1 & _ & _).
  destruct (idle_reaper_evicts_only_idle_empty late 7 (Sample.world queued) queued eq_refl)
    as (_ & H2 & _).
  destruct (idle_reaper_evicts_only_idle_empty (Sample.env (Some Sample.vc_playing)) 7
              (Sample.world idle) idle eq_refl) as (_ & _ & H3).
  split; [|split].
  - apply H1. split; [discriminate|]. split; [exists Sample.vc_silent; split; reflexivity|].
    split; [reflexivity | reflexivity].
  - apply H2. intros (_ & _ & _ & Hq). discriminate Hq.
  - apply H3; [discriminate | exists Sample.vc_playing; split; reflexivity].
Defined.


(** * Further properties of the player *)

(** ** The state file, seen from the panel *)

Lemma str_inj (gid gid' : Z) : str gid = str gid' -> gid = gid'.
Proof. unfold str. apply pretty_Z_inj. Qed.

(** X1. Publishing or removing the document of one guild leaves what the
    panel reads for every other guild as it was. *)
Theorem update_state_isolates_guilds (gid gid' : Z) (payload : option (gmap string JVal))
    (file : option (gmap string (gmap string JVal))) :
  gid <> gid' ->
  AdminApp.get_state_for_guild gid' (_update_state gid payload file)
  = AdminApp.get_state_for_guild gid' file.
Proof.
  intros Hne.
  assert (Hk : str gid <> str gid') by (intros H; apply str_inj in H; congruence).
  unfold AdminApp.get_state_for_guild, _update_state, _save_json_state.
  destruct payload; [rewrite lookup_insert_ne by exact Hk | rewrite lookup_delete_ne by exact Hk];
    (destruct file; simpl; [reflexivity | now rewrite lookup_empty]).
Qed.

Lemma update_state_isolates_guilds_witness :
  AdminApp.get_state_for_guild 8
    (_update_state 7 (Some {["status" := JStr "paused"]}) Sample.published)
  = {["status" := JStr "paused"]}.
Proof.
  rewrite (update_state_isolates_guilds 7 8 (Some {["status" := JStr "paused"]})
             Sample.published); [reflexivity | discriminate].
Defined.

(** What the bot publishes for a guild is what the panel reads for
    it, whatever the file held before, and after a removal the panel reads
    the empty document. *)
Theorem panel_reads_what_bot_publishes (gid : Z) (payload : gmap string JVal)
    (file : option (gmap string (gmap string JVal))) :
  AdminApp.get_state_for_guild gid (_update_state gid (Some payload) file) = payload
  /\ AdminApp.get_state_for_guild gid (_update_state gid None file) = ∅.
Proof.
  unfold AdminApp.get_state_for_guild, _update_state, _save_json_state. split.
  - now rewrite lookup_insert_eq.
  - now rewrite lookup_delete_eq.
Qed.

(** ** What an advance publishes *)

Lemma start_track_file (gid : Z) (n : nat) (env : Env) (track : Track) (s : GuildState)
    (w : World) :
  guild env = Some gid -> connect_player env = None -> lock_locked w = true ->
  state_file (snd (MusicPower.start_track (MusicPower.play_next (S n) env false) env gid
                     track s w))
  = _update_state gid (Some (published_payload env (set_now (Some track) s))) (state_file w).
Proof.
  intros Hg Hc Hl. unfold MusicPower.start_track.
  set (s1 := set_now (Some track) s).
  set (w1 := publish gid _ (put gid s1 w)).
  assert (Hf1 : state_file w1
                = _update_state gid (Some (published_payload env s1)) (state_file w))
    by reflexivity.
  assert (Hl1 : lock_locked w1 = true) by exact Hl.
  match goal with |- context [match ?st with inl _ => _ | inr _ => _ end] =>
    assert (Hcase : (exists w2, st = inr w2 /\ state_file w2 = state_file w1)
                    \/ (exists e, st = inl e)) end.
  { destruct (lavalink env).
    - unfold MusicPower._play_lavalink. destruct (node_play env track); eauto.
    - destruct (voice_client env); [|eauto].
      unfold MusicPower._play_local. destruct (ffmpeg_play env track); eauto. }
  destruct Hcase as [(w2 & -> & Hf2) | (e & ->)]; simpl.
  - now rewrite Hf2.
  - set (w2 := emit _ w1).
    destruct (play_next_blocked gid n env false w2 s1 Hg Hc Hl1) as (w3 & Hr & _ & _ & Hf3).
    { change (states w1 !! gid = Some s1). apply lookup_insert_eq. }
    simpl in Hr. rewrite Hr. simpl. rewrite Hf3. exact Hf1.
Qed.

Lemma snapshot_ignores_idle_since (limit : Z) (time t : Q) (s : GuildState) :
  _snapshot_state limit time (set_idle_since t s) = _snapshot_state limit time s.
Proof. reflexivity. Qed.

(** The state file after [play_next] holds, for the guild, the payload of
    the session [advance] describes. *)
Lemma play_next_publishes (gid : Z) (n : nat) (env : Env) (forced : bool) (w : World)
    (s : GuildState) :
  guild env = Some gid -> connect_player env = None ->
  lock_locked w = false -> states w !! gid = Some s ->
  state_file (snd (MusicPower.play_next (S (S n)) env forced w))
  = _update_state gid (Some (published_payload env (advance forced (clock env 0%nat) s)))
      (state_file w).
Proof.
  intros Hg Hc Hl Hs.
  change (MusicPower.play_next (S (S n)) env forced w)
    with (MusicPower.play_next_body (MusicPower.play_next (S n) env false) env forced w).
  unfold MusicPower.play_next_body. rewrite Hg.
  destruct (reconnect_player_ok env w Hc) as (w' & -> & Hst & Hlk & Hf).
  rewrite (gs_found gid w' s) by congruence.
  rewrite Hlk, Hl. rewrite <- Hf.
  assert (Hl' : lock_locked (set_lock true w') = true) by reflexivity.
  pose proof (fun track s0 =>
    start_track_file gid n env track s0 (set_lock true w') Hg Hc Hl') as Hstart.
  unfold advance.
  destruct (now s) as [cur|] eqn:Hnow.
  - destruct ((loop s =? LoopMode.ONE) && negb forced) eqn:Hone.
    + rewrite <- (set_now_same s cur Hnow) at 2. exact (Hstart cur s).
    + destruct (queue s) as [|next rest] eqn:Hq.
      * reflexivity.
      * simpl. rewrite Hnow.
        destruct ((loop s =? LoopMode.ALL) && negb forced).
        -- exact (Hstart next (set_queue (rest ++ [cur]) s)).
        -- exact (Hstart next (set_queue rest s)).
  - destruct (queue s) as [|next rest] eqn:Hq.
    + reflexivity.
    + simpl. rewrite Hnow. exact (Hstart next (set_queue rest s)).
Qed.

Lemma published_payload_fields (env : Env) (s' : GuildState) :
  published_payload env s' !! "status"
    = Some (JStr (match now s' with Some _ => "playing" | None => "idle" end))
  /\ published_payload env s' !! "title" = (fun t => JStr (title t)) <$> now s'
  /\ published_payload env s' !! "web" = (fun t => JStr (webpage_url t)) <$> now s'
  /\ published_payload env s' !! "queue_len" = Some (JInt (Z.of_nat (length (queue s'))))
  /\ published_payload env s' !! "loop"
     = Some (JBool ((loop s' =? LoopMode.ONE) || (loop s' =? LoopMode.ALL))).
Proof.
  unfold published_payload, _snapshot_state, now_fields.
  destruct (now s') as [track|]; simpl; repeat split; reflexivity.
Qed.

(** X2. After [play_next], whether the source started or the call is
    stuck in its retry, the document the panel reads for the guild agrees
    with the session: its status is playing exactly when a track is
    current, its title and page are those of that track (and absent when
    idle), and its queue length is the length of the queue. *)
Theorem play_next_snapshot_agrees_with_session (gid : Z) (n : nat) (env : Env)
    (forced : bool) (w : World) (s : GuildState) :
  guild env = Some gid -> connect_player env = None ->
  lock_locked w = false -> states w !! gid = Some s ->
  let w' := snd (MusicPower.play_next (S (S n)) env forced w) in
  let doc := AdminApp.get_state_for_guild gid (state_file w') in
  doc !! "status"
    = Some (JStr (match now_playing gid w' with Some _ => "playing" | None => "idle" end))
  /\ doc !! "title" = (fun t => JStr (title t)) <$> now_playing gid w'
  /\ doc !! "web" = (fun t => JStr (webpage_url t)) <$> now_playing gid w'
  /\ doc !! "queue_len" = Some (JInt (Z.of_nat (length (queue_of gid w')))).
Proof.
  intros Hg Hc Hl Hs w' doc. subst w' doc.
  destruct (play_next_advance gid n env forced w s Hg Hc Hl Hs) as [Hst _].
  rewrite (play_next_publishes gid n env forced w s Hg Hc Hl Hs).
  unfold AdminApp.get_state_for_guild, _update_state, _save_json_state.
  rewrite lookup_insert_eq. simpl default.
  unfold now_playing, queue_of. rewrite Hst, lookup_insert_eq.
  destruct (published_payload_fields env (advance forced (clock env 0%nat) s))
    as (H1 & H2 & H3 & H4 & _).
  auto.
Qed.

Lemma play_next_snapshot_agrees_with_session_witness :
  let w' := snd (MusicPower.play_next 2 Sample.env_broken false
                   (Sample.world (Sample.session LoopMode.OFF None [Sample.A; Sample.B]))) in
  AdminApp.get_state_for_guild 7 (state_file w') !! "title" = Some (JStr "A")
  /\ AdminApp.get_state_for_guild 7 (state_file w') !! "queue_len" = Some (JInt 1).
Proof.
  destruct (play_next_snapshot_agrees_with_session 7 0 Sample.env_broken false
              (Sample.world (Sample.session LoopMode.OFF None [Sample.A; Sample.B]))
              (Sample.session LoopMode.OFF None [Sample.A; Sample.B])
              eq_refl eq_refl eq_refl eq_refl) as (_ & H2 & _ & H4).
  split; [exact H2 | exact H4].
Defined.

(** The idle branch of [play_next], in full. *)
Lemma play_next_idle (gid : Z) (n : nat) (env : Env) (forced : bool) (w : World)
    (s : GuildState) :
  guild env = Some gid -> connect_player env = None ->
  lock_locked w = false -> states w !! gid = Some s ->
  queue s = [] -> replays forced s = false ->
  let r := MusicPower.play_next (S n) env forced w in
  let doc := AdminApp.get_state_for_guild gid (state_file (snd r)) in
  fst r = Returned
  /\ lock_locked (snd r) = false
  /\ states (snd r) !! gid = Some (set_idle_since (clock env 0%nat) (set_now None s))
  /\ (effects (snd r) = effects w \/ effects (snd r) = effects w ++ [ConnectPlayer])
  /\ doc !! "status" = Some (JStr "idle")
  /\ doc !! "title" = None
  /\ doc !! "queue_len" = Some (JInt 0).
Proof.
  intros Hg Hc Hl Hs Hq Hrep. cbv zeta.
  change (MusicPower.play_next (S n) env forced w)
    with (MusicPower.play_next_body (MusicPower.play_next n env false) env forced w).
  unfold MusicPower.play_next_body. rewrite Hg.
  assert (Hrc : exists w', MusicPower.reconnect_player env w = inr w'
                  /\ states w' = states w /\ lock_locked w' = lock_locked w
                  /\ (effects w' = effects w \/ effects w' = effects w ++ [ConnectPlayer])).
  { unfold MusicPower.reconnect_player. rewrite Hc.
    destruct (voice_client env) as [vc|]; [|eauto 6].
    destruct (lavalink env && negb (is_player vc) && user_in_voice env); eauto 6. }
  destruct Hrc as (w' & -> & Hst & Hlk & Heff).
  rewrite (gs_found gid w' s) by congruence. rewrite Hlk, Hl.
  unfold replays in Hrep.
  assert (Hre : match now s with
                | Some cur =>
                    if (loop s =? LoopMode.ONE) && negb forced then Some cur else None
                | None => None
                end = None)
    by (destruct (now s); [rewrite Hrep|]; reflexivity).
  rewrite Hre, Hq. unfold MusicPower.go_idle. simpl fst. simpl snd.
  split; [reflexivity|]. split; [reflexivity|].
  split; [apply lookup_insert_eq|]. split; [exact Heff|].
  unfold AdminApp.get_state_for_guild. simpl state_file.
  unfold _update_state, _save_json_state. rewrite lookup_insert_eq. simpl default.
  destruct (published_payload_fields env (set_now None s)) as (H1 & H2 & _ & H4 & _).
  unfold published_payload in H1, H2, H4. simpl in H1, H2, H4. rewrite Hq in H4.
  auto.
Qed.

(** X3. With nothing queued and no replay due, [play_next] returns with
    one unit of fuel, releases the lock, clears the current track, stamps
    [idle_since] with the time read, starts no source and sends nothing,
    and the panel reads an idle document without a title. *)
Theorem play_next_goes_idle (gid : Z) (n : nat) (env : Env) (forced : bool) (w : World)
    (s : GuildState) :
  guild env = Some gid -> connect_player env = None ->
  lock_locked w = false -> states w !! gid = Some s ->
  queue s = [] -> replays forced s = false ->
  let r := MusicPower.play_next (S n) env forced w in
  let doc := AdminApp.get_state_for_guild gid (state_file (snd r)) in
  fst r = Returned
  /\ lock_locked (snd r) = false
  /\ states (snd r) !! gid = Some (set_idle_since (clock env 0%nat) (set_now None s))
  /\ (effects (snd r) = effects w \/ effects (snd r) = effects w ++ [ConnectPlayer])
  /\ doc !! "status" = Some (JStr "idle")
  /\ doc !! "title" = None
  /\ doc !! "queue_len" = Some (JInt 0).
Proof. exact (play_next_idle gid n env forced w s). Qed.

Lemma play_next_goes_idle_witness :
  let r := MusicPower.play_next 1 (Sample.env (Some Sample.vc_silent)) false
             (Sample.world (Sample.session LoopMode.ALL (Some Sample.A) [])) in
  fst r = Returned /\ now_playing 7 (snd r) = None /\ effects (snd r) = [].
Proof.
  destruct (play_next_goes_idle 7 0 (Sample.env (Some Sample.vc_silent)) false
              (Sample.world (Sample.session LoopMode.ALL (Some Sample.A) []))
              (Sample.session LoopMode.ALL (Some Sample.A) [])
              eq_refl eq_refl eq_refl eq_refl eq_refl eq_refl) as (H1 & _ & H3 & _).
  split; [exact H1|]. split; [|reflexivity].
  unfold now_playing. cbv zeta in H3. rewrite H3. reflexivity.
Defined.

(** ** Effects are only ever added *)

Lemma reconnect_player_effects (env : Env) (w w' : World) :
  MusicPower.reconnect_player env w = inr w' ->
  exists l, effects w' = effects w ++ l.
Proof.
  unfold MusicPower.reconnect_player. intros H.
  destruct (voice_client env) as [vc|];
    [|inversion H; subst; exists []; now rewrite app_nil_r].
  destruct (lavalink env && negb (is_player vc) && user_in_voice env);
    [|inversion H; subst; exists []; now rewrite app_nil_r].
  destruct (connect_player env); [discriminate|]. inversion H; subst. now eexists.
Qed.

Lemma gs_effects (gid : Z) (w : World) : effects (snd (gs gid w)) = effects w.
Proof. unfold gs. destruct (states w !! gid); reflexivity. Qed.

Lemma play_next_effects (fuel : nat) :
  forall (env : Env) (forced : bool) (w : World),
    exists l, effects (snd (MusicPower.play_next fuel env forced w)) = effects w ++ l.
Proof.
  induction fuel as [|fuel IH]; intros env forced w.
  - exists []. simpl. now rewrite app_nil_r.
  - change (MusicPower.play_next (S fuel) env forced w)
      with (MusicPower.play_next_body (MusicPower.play_next fuel env false) env forced w).
    unfold MusicPower.play_next_body.
    destruct (guild env) as [gid|]; [|exists []; simpl; now rewrite app_nil_r].
    destruct (MusicPower.reconnect_player env w) as [e|w1] eqn:Hr;
      [exists []; simpl; now rewrite app_nil_r|].
    destruct (reconnect_player_effects env w w1 Hr) as [l1 Hl1].
    pose proof (gs_effects gid w1) as Hgs.
    destruct (gs gid w1) as [s w2]. simpl in Hgs.
    destruct (lock_locked w2); [exists l1; simpl; congruence|].
    assert (Hstart : forall track s0,
              exists l, effects (snd (MusicPower.start_track
                                        (MusicPower.play_next fuel env false) env gid
                                        track s0 (set_lock true w2)))
                        = effects w ++ l).
    { intros track s0. unfold MusicPower.start_track.
      match goal with |- context [match ?st with inl _ => _ | inr _ => _ end] =>
        assert (Hcase : (exists w3 l, st = inr w3 /\ effects w3 = effects w2 ++ l)
                        \/ (exists e, st = inl e)) end.
      { destruct (lavalink env).
        - unfold MusicPower._play_lavalink. destruct (node_play env track);
            [left; eexists _, [_]; split; reflexivity
            |left; eexists _, []; split; [reflexivity | simpl; now rewrite app_nil_r]
            |eauto].
        - destruct (voice_client env);
            [|left; eexists _, []; split; [reflexivity | simpl; now rewrite app_nil_r]].
          unfold MusicPower._play_local. destruct (ffmpeg_play env track);
            [eauto | left; eexists _, [_]; split; reflexivity]. }
      destruct Hcase as [(w3 & l & -> & Hw3) | (e & ->)].
      - exists (l1 ++ l). simpl. rewrite Hw3, Hgs, Hl1. now rewrite app_assoc.
      - match goal with |- context [MusicPower.play_next fuel env false ?x] =>
          destruct (IH env false x) as [l Hl];
          destruct (MusicPower.play_next fuel env false x) as [o w4] end.
        simpl in Hl. exists (l1 ++ [FollowupSend (MsgPlaybackError (exn_text e))] ++ l).
        destruct o; simpl; rewrite Hl; simpl; rewrite Hgs, Hl1;
          now rewrite <- !app_assoc. }
    destruct (match now s with
              | Some cur =>
                  if (loop s =? LoopMode.ONE) && negb forced then Some cur else None
              | None => None
              end); [apply Hstart|].
    destruct (queue s); [|apply Hstart].
    exists l1. simpl. congruence.
Qed.

(** ** Skipping *)

(** X4. [skip] while the voice client is playing, in any loop mode and
    with sources that start: the voice client is stopped, the track that
    was current is dropped (it is neither replayed under ONE nor put back
    in the queue under ALL), the front of the queue becomes current and
    the rest stays queued in order. *)
Theorem skip_drops_current_track (gid : Z) (n : nat) (env : Env) (w : World)
    (s : GuildState) (vc : VoiceClient) (cur next : Track) (rest : list Track) :
  Healthy gid env -> voice_client env = Some vc -> is_playing vc = true ->
  lock_locked w = false -> states w !! gid = Some s ->
  now s = Some cur -> queue s = next :: rest ->
  let r := MusicPower.skip (S n) env w in
  fst r = Returned
  /\ now_playing gid (snd r) = Some next
  /\ queue_of gid (snd r) = rest
  /\ lock_locked (snd r) = false
  /\ exists l, effects (snd r)
               = effects w ++ [ResponseDefer; VcStop] ++ l ++ [FollowupSend MsgSkipped].
Proof.
  intros Hh Hvc Hp Hl Hs Hnow Hq. pose proof Hh as [Hg _ _ _].
  set (w0 := emit VcStop (emit ResponseDefer w)).
  assert (Hgo : MusicPower.skip (S n) env w
                = match MusicPower.play_next (S n) env true w0 with
                  | (Returned, w1) => (Returned, emit (FollowupSend MsgSkipped) w1)
                  | (o, w1) => (o, w1)
                  end).
  { unfold MusicPower.skip, MusicPower.guild_vc. rewrite Hg, Hvc, Hp. simpl negb.
    destruct (lavalink env && is_player vc); reflexivity. }
  cbv zeta. rewrite Hgo.
  destruct (play_next_effects (S n) env true w0) as [l Heff].
  destruct (play_next_healthy gid n env true w0 s Hh Hl Hs) as (w1 & Hr & Hst & Hl1).
  rewrite Hr in Heff |- *. simpl in Heff |- *.
  unfold now_playing, queue_of. simpl states. rewrite Hst, lookup_insert_eq.
  unfold advance. rewrite Hnow, Hq, !andb_false_r. simpl.
  repeat split; try assumption.
  exists l. rewrite Heff. now rewrite <- !app_assoc.
Qed.

Lemma skip_drops_current_track_witness :
  let r := MusicPower.skip 1 (Sample.env (Some Sample.vc_playing))
             (Sample.world (Sample.session LoopMode.ALL (Some Sample.A) [Sample.B; Sample.C])) in
  now_playing 7 (snd r) = Some Sample.B /\ queue_of 7 (snd r) = [Sample.C].
Proof.
  destruct (skip_drops_current_track 7 0 (Sample.env (Some Sample.vc_playing))
              (Sample.world (Sample.session LoopMode.ALL (Some Sample.A) [Sample.B; Sample.C]))
              (Sample.session LoopMode.ALL (Some Sample.A) [Sample.B; Sample.C])
              Sample.vc_playing Sample.A Sample.B [Sample.C]
              (sample_env_healthy _) eq_refl eq_refl eq_refl eq_refl eq_refl eq_refl)
    as (_ & H2 & H3 & _).
  split; [exact H2 | exact H3].
Defined.

(** With a voice client of the local backend that is connected but
    not playing, [skip] and [pause] change no session, leave the state
    file and the lock alone and only answer the caller; neither stops nor
    pauses anything, and [play_next] is not called. *)
Theorem commands_without_audio_change_nothing (gid : Z) (fuel : nat) (env : Env)
    (w : World) (vc : VoiceClient) :
  guild env = Some gid -> voice_client env = Some vc ->
  is_playing vc = false -> lavalink env = false ->
  MusicPower.skip fuel env w
    = (Returned, emit (FollowupSend MsgNothingPlaying) (emit ResponseDefer w))
  /\ MusicPower.pause env w = (Returned, emit (ResponseSend MsgNothingToPause) w)
  /\ states (snd (MusicPower.skip fuel env w)) = states w
  /\ state_file (snd (MusicPower.skip fuel env w)) = state_file w
  /\ states (snd (MusicPower.pause env w)) = states w
  /\ state_file (snd (MusicPower.pause env w)) = state_file w.
Proof.
  intros Hg Hvc Hp Hlav.
  assert (H1 : MusicPower.skip fuel env w
               = (Returned, emit (FollowupSend MsgNothingPlaying) (emit ResponseDefer w)))
    by (unfold MusicPower.skip, MusicPower.guild_vc; now rewrite Hg, Hvc, Hp, Hlav).
  assert (H2 : MusicPower.pause env w = (Returned, emit (ResponseSend MsgNothingToPause) w))
    by (unfold MusicPower.pause, MusicPower.guild_vc; now rewrite Hg, Hvc, Hp, Hlav).
  rewrite H1, H2. repeat split.
Qed.

Lemma commands_without_audio_change_nothing_witness :
  let w := Sample.world (Sample.session LoopMode.ONE (Some Sample.A) [Sample.B]) in
  states (snd (MusicPower.skip 3 (Sample.env (Some Sample.vc_silent)) w)) = states w.
Proof.
  destruct (commands_without_audio_change_nothing 7 3 (Sample.env (Some Sample.vc_silent))
              (Sample.world (Sample.session LoopMode.ONE (Some Sample.A) [Sample.B]))
              Sample.vc_silent eq_refl eq_refl eq_refl eq_refl) as (_ & _ & H & _).
  exact H.
Defined.

(** ** Stopping *)

Lemma stop_outcome (gid : Z) (env : Env) (w : World) (s : GuildState) :
  guild env = Some gid -> states w !! gid = Some s ->
  exists w1, MusicPower.stop env w = (Returned, w1)
    /\ states w1 = <[gid := clear s]> (states w)
    /\ lock_locked w1 = lock_locked w
    /\ state_file w1 = _update_state gid None (state_file w).
Proof.
  intros Hg Hs. unfold MusicPower.stop. rewrite Hg, (gs_found gid w s Hs).
  destruct (MusicPower.guild_vc env) as [vc|]; [|eexists; repeat split].
  destruct (lavalink env && is_player vc); [eexists; repeat split|].
  destruct (is_playing vc || is_paused vc); eexists; repeat split.
Qed.

(** X5. [stop] removes the document of the guild, and the completion
    callback that follows it (with sources that would start) starts
    nothing: whatever the session held before, autoplay and radio query
    included, the callback returns, the session is idle with an empty
    queue, no source is played, and the panel reads an idle document. *)
Theorem stop_then_completion_stays_idle (gid : Z) (n : nat) (env env' : Env) (w : World)
    (s : GuildState) :
  guild env = Some gid -> Healthy gid env' ->
  lock_locked w = false -> states w !! gid = Some s ->
  let w1 := snd (MusicPower.stop env w) in
  let r := MusicPower._after_finished (S n) env' w1 in
  AdminApp.get_state_for_guild gid (state_file w1) = ∅
  /\ fst r = Returned
  /\ now_playing gid (snd r) = None
  /\ queue_of gid (snd r) = []
  /\ (effects (snd r) = effects w1 \/ effects (snd r) = effects w1 ++ [ConnectPlayer])
  /\ AdminApp.get_state_for_guild gid (state_file (snd r)) !! "status" = Some (JStr "idle").
Proof.
  intros Hg Hh Hl Hs. pose proof Hh as [Hg' Hc' _ _].
  destruct (stop_outcome gid env w s Hg Hs) as (w1 & Hstop & Hst1 & Hl1 & Hf1).
  cbv zeta. rewrite Hstop. simpl snd.
  assert (Hs1 : states w1 !! gid = Some (clear s)) by (rewrite Hst1; apply lookup_insert_eq).
  split.
  { rewrite Hf1. unfold AdminApp.get_state_for_guild, _update_state, _save_json_state.
    now rewrite lookup_delete_eq. }
  assert (Hcb : MusicPower._after_finished (S n) env' w1
                = MusicPower.play_next (S n) env' false w1).
  { unfold MusicPower._after_finished. rewrite Hg', (gs_found gid w1 (clear s) Hs1).
    reflexivity. }
  rewrite Hcb.
  destruct (play_next_idle gid n env' false w1 (clear s) Hg' Hc')
    as (H1 & _ & H3 & H4 & H5 & _); [congruence | exact Hs1 | reflexivity | reflexivity |].
  split; [exact H1|]. unfold now_playing, queue_of. rewrite H3.
  repeat split; assumption.
Qed.

Lemma stop_then_completion_stays_idle_witness :
  let s := mkGuildState [Sample.B] LoopMode.ALL (1 # 1) None None (0 # 1) (Some Sample.A)
             true (Some "lofi") in
  let w1 := snd (MusicPower.stop (Sample.env (Some Sample.vc_playing)) (Sample.world s)) in
  now_playing 7 (snd (MusicPower._after_finished 1 (Sample.env (Some Sample.vc_silent)) w1))
  = None.
Proof.
  intros s.
  destruct (stop_then_completion_stays_idle 7 0 (Sample.env (Some Sample.vc_playing))
              (Sample.env (Some Sample.vc_silent)) (Sample.world s) s
              eq_refl (sample_env_healthy _) eq_refl eq_refl) as (_ & _ & H & _).
  exact H.
Defined.


(** ** Autoplay *)

(** X6. When a track finishes with an empty queue, autoplay or a radio
    query on, and no replay due: the backend is searched for the radio
    query if there is one, else for the title of the finished track, and
    if it finds candidates the one drawn is played at once; the queue is
    left empty, or holds the finished track under [LoopMode.ALL]. *)
Theorem autoplay_plays_a_candidate (gid : Z) (n : nat) (env : Env) (w : World)
    (s : GuildState) (seed : string) (candidates : list Track) :
  Healthy gid env -> lock_locked w = false -> states w !! gid = Some s ->
  queue s = [] -> replays false s = false ->
  autoplay s || str_truthy (radio_query s) = true ->
  autoplay_seed s = Some seed -> seed <> "" ->
  search env (autoplay_query seed) = inr candidates -> candidates <> [] ->
  let r := MusicPower._after_finished (S n) env w in
  fst r = Returned
  /\ now_playing gid (snd r) = candidates !! (random_choice env `mod` length candidates)%nat
  /\ (exists c, now_playing gid (snd r) = Some c /\ c ∈ candidates)
  /\ queue_of gid (snd r)
     = match now s with
       | Some cur => if loop s =? LoopMode.ALL then [cur] else []
       | None => []
       end.
Proof.
  intros Hh Hl Hs Hq Hrep Hon Hseed Hne Hsearch Hcand. pose proof Hh as [Hg _ _ _].
  assert (Hlen : (0 < length candidates)%nat)
    by (destruct candidates; simpl; [congruence | lia]).
  pose proof (Nat.mod_upper_bound (random_choice env) (length candidates) ltac:(lia)) as Hi.
  destruct (lookup_lt_is_Some_2 candidates _ Hi) as [c Hc].
  cbv zeta. unfold MusicPower._after_finished. rewrite Hg, (gs_found gid w s Hs), Hq, Hon.
  unfold autoplay_seed in Hseed. rewrite Hseed.
  assert (Htruthy : str_truthy (Some seed) = true).
  { simpl. destruct (String.eqb_spec seed ""); [contradiction | reflexivity]. }
  rewrite Htruthy. unfold autoplay_query in Hsearch. rewrite Hsearch, Hc. simpl app.
  set (s2 := set_queue [c] s).
  destruct (play_next_healthy gid n env false (put gid s2 w) s2 Hh Hl (put_lookup gid s2 w))
    as (w1 & -> & Hst & Hl1).
  simpl fst. simpl snd. unfold now_playing, queue_of. rewrite Hst, lookup_insert_eq.
  assert (Hin : c ∈ candidates) by (eapply list_elem_of_lookup_2; exact Hc).
  unfold advance. change (now s2) with (now s). change (loop s2) with (loop s).
  change (queue s2) with [c]. unfold replays in Hrep.
  destruct (now s) as [cur|] eqn:Hnow.
  - rewrite Hrep.
    destruct (loop s =? LoopMode.ALL); simpl; repeat split; eauto.
  - simpl. repeat split; eauto.
Qed.

Lemma sample_env_radio_healthy (vc : option VoiceClient) : Healthy 7 (Sample.env_radio vc).
Proof. split; [reflexivity | reflexivity | reflexivity | discriminate]. Qed.

Lemma autoplay_plays_a_candidate_witness :
  let s := mkGuildState [] LoopMode.OFF (1 # 1) None None (0 # 1) (Some Sample.A)
             false (Some "lofi") in
  now_playing 7 (snd (MusicPower._after_finished 1 (Sample.env_radio (Some Sample.vc_silent))
                        (Sample.world s)))
  = Some Sample.C.
Proof.
  intros s.
  destruct (autoplay_plays_a_candidate 7 0 (Sample.env_radio (Some Sample.vc_silent))
              (Sample.world s) s "lofi"
              [Sample.B; Sample.C] (sample_env_radio_healthy _)
              eq_refl eq_refl eq_refl eq_refl eq_refl eq_refl)
    as (_ & H & _); [discriminate | reflexivity | discriminate |].
  exact H.
Defined.

(** X7. A search that fails or finds nothing is swallowed by the
    completion callback: for any session, with autoplay or a radio query
    or neither, the callback is exactly [play_next] on the world as it
    was, so nothing is appended and no error reaches the caller. *)
Theorem autoplay_search_failure_is_swallowed (gid : Z) (fuel : nat) (env : Env)
    (w : World) (s : GuildState) :
  guild env = Some gid -> states w !! gid = Some s ->
  (forall q, match search env q with inr (_ :: _) => False | _ => True end) ->
  MusicPower._after_finished fuel env w = MusicPower.play_next fuel env false w.
Proof.
  intros Hg Hs Hnone. unfold MusicPower._after_finished.
  rewrite Hg, (gs_found gid w s Hs).
  destruct (queue s); [|reflexivity].
  destruct (autoplay s || str_truthy (radio_query s)); [|reflexivity].
  destruct (if str_truthy (radio_query s) then radio_query s else title <$> now s)
    as [sd|] eqn:Hseed; [|reflexivity].
  destruct (str_truthy (Some sd)); [|reflexivity].
  specialize (Hnone ("ytsearch10:" +:+ sd +:+ " official audio")).
  destruct (search env ("ytsearch10:" +:+ sd +:+ " official audio")) as [e|[|c cs]];
    [reflexivity | reflexivity | contradiction].
Qed.

Lemma autoplay_search_failure_is_swallowed_witness :
  let s := mkGuildState [] LoopMode.OFF (1 # 1) None None (0 # 1) (Some Sample.A)
             true None in
  MusicPower._after_finished 1 (Sample.env (Some Sample.vc_silent)) (Sample.world s)
  = MusicPower.play_next 1 (Sample.env (Some Sample.vc_silent)) false (Sample.world s).
Proof.
  intros s.
  apply (autoplay_search_failure_is_swallowed 7 1 (Sample.env (Some Sample.vc_silent))
           (Sample.world s) s eq_refl eq_refl).
  intros q. exact I.
Defined.


(** ** The session store *)

(** X8. [gs] is a get-or-create: the session it returns is the one
    stored for the guild afterwards, asking again returns the same session
    and changes nothing, an existing session is returned as it is, a
    missing one is created with the defaults (empty queue, loop off, volume
    1.0, nothing current), and the sessions of other guilds, the lock, the
    state file and the effects are untouched. *)
Theorem gs_gets_or_creates (gid : Z) (w : World) :
  let s := fst (gs gid w) in
  let w' := snd (gs gid w) in
  states w' !! gid = Some s
  /\ gs gid w' = (s, w')
  /\ (forall s0, states w !! gid = Some s0 -> s = s0 /\ w' = w)
  /\ (states w !! gid = None -> s = new_GuildState)
  /\ (forall g, g <> gid -> states w' !! g = states w !! g)
  /\ lock_locked w' = lock_locked w /\ state_file w' = state_file w
  /\ effects w' = effects w.
Proof.
  cbv zeta. unfold gs. destruct (states w !! gid) as [s0|] eqn:Hs; simpl.
  - rewrite Hs. split; [reflexivity|]. split; [reflexivity|].
    split; [intros s1 H1; split; congruence|]. split; [discriminate|].
    repeat split.
  - rewrite lookup_insert_eq. split; [reflexivity|]. split; [reflexivity|].
    split; [discriminate|]. split; [reflexivity|].
    split; [intros g Hg; now apply lookup_insert_ne|]. repeat split.
Qed.

Lemma gs_gets_or_creates_witness :
  fst (gs 8 (Sample.world (Sample.session LoopMode.ALL (Some Sample.A) []))) = new_GuildState
  /\ states (snd (gs 8 (Sample.world (Sample.session LoopMode.ALL (Some Sample.A) [])))) !! 7
     = Some (Sample.session LoopMode.ALL (Some Sample.A) []).
Proof.
  destruct (gs_gets_or_creates 8
              (Sample.world (Sample.session LoopMode.ALL (Some Sample.A) [])))
    as (_ & _ & _ & H4 & H5 & _).
  split; [apply H4; reflexivity | rewrite H5; [reflexivity | discriminate]].
Defined.

(** ** Enqueueing *)

(** X9. [play] while the voice client is playing or paused, with a
    search that finds tracks: they are appended behind the queue in the
    order found, each marked with the caller's id; the current track and
    the tracks already queued are untouched, nothing is started, the lock
    and the state file are left as they were, and the caller's channel is
    recorded. *)
Theorem play_while_busy_appends_in_order (gid : Z) (fuel : nat) (env : Env)
    (query : string) (w : World) (s : GuildState) (vc : VoiceClient)
    (tracks : list Track) :
  guild env = Some gid -> voice_client env = Some vc ->
  is_playing vc || is_paused vc = true ->
  states w !! gid = Some s -> search env query = inr tracks -> tracks <> [] ->
  let r := MusicPower.play fuel env query w in
  fst r = Returned
  /\ queue_of gid (snd r) = queue s ++ (requested_by_user (user_id env) <$> tracks)
  /\ now_playing gid (snd r) = now s
  /\ (exists s', states (snd r) !! gid = Some s'
        /\ last_text_channel_id s' = channel_id env /\ loop s' = loop s
        /\ volume s' = volume s)
  /\ lock_locked (snd r) = lock_locked w
  /\ state_file (snd r) = state_file w
  /\ exists m, effects (snd r)
               = effects w ++ [ResponseDefer; FollowupSend m; ChannelSend MsgNowEmbed].
Proof.
  intros Hg Hvc Hbusy Hs Hsearch Hne. cbv zeta.
  unfold MusicPower.play. rewrite Hg, Hvc.
  rewrite (gs_found gid (emit ResponseDefer w) s Hs), Hsearch.
  assert (Hcond : negb (is_playing vc) && negb (is_paused vc) = false)
    by (destruct (is_playing vc), (is_paused vc); simpl in *; congruence).
  cbv zeta. rewrite Hcond.
  destruct tracks as [|t ts]; [congruence|]. simpl.
  unfold now_playing, queue_of. simpl. rewrite lookup_insert_eq. simpl.
  repeat split.
  - eexists. split; [reflexivity|]. repeat split.
  - eexists. now rewrite <- !app_assoc.
Qed.

Lemma play_while_busy_appends_in_order_witness :
  queue_of 7 (snd (MusicPower.play 1 (Sample.env_radio (Some Sample.vc_playing)) "lofi"
                     (Sample.world (Sample.session LoopMode.OFF (Some Sample.A) [Sample.A]))))
  = [Sample.A; requested_by_user 42 Sample.B; requested_by_user 42 Sample.C].
Proof.
  destruct (play_while_busy_appends_in_order 7 1 (Sample.env_radio (Some Sample.vc_playing))
              "lofi" (Sample.world (Sample.session LoopMode.OFF (Some Sample.A) [Sample.A]))
              (Sample.session LoopMode.OFF (Some Sample.A) [Sample.A]) Sample.vc_playing
              [Sample.B; Sample.C] eq_refl eq_refl eq_refl eq_refl eq_refl)
    as (_ & H & _); [discriminate|].
  exact H.
Defined.

Lemma start_track_healthy_file (gid : Z) (retry : World -> Outcome * World) (env : Env)
    (track : Track) (s : GuildState) (w : World) :
  Healthy gid env ->
  state_file (snd (MusicPower.start_track retry env gid track s w))
  = _update_state gid (Some (published_payload env (set_now (Some track) s))) (state_file w).
Proof.
  intros [Hg Hc Hf Hn]. unfold MusicPower.start_track.
  destruct (lavalink env).
  - unfold MusicPower._play_lavalink.
    destruct (node_play env track) eqn:E; [reflexivity | reflexivity |].
    now destruct (Hn track e).
  - destruct (voice_client env); [|reflexivity].
    unfold MusicPower._play_local. now rewrite Hf.
Qed.

(** With sources that start, [play_next] publishes the payload of the
    session it leaves, with one unit of fuel. *)
Lemma play_next_healthy_file (gid : Z) (n : nat) (env : Env) (forced : bool) (w : World)
    (s : GuildState) :
  Healthy gid env -> lock_locked w = false -> states w !! gid = Some s ->
  state_file (snd (MusicPower.play_next (S n) env forced w))
  = _update_state gid (Some (published_payload env (advance forced (clock env 0%nat) s)))
      (state_file w).
Proof.
  intros Hh Hl Hs. pose proof Hh as [Hg Hc _ _].
  change (MusicPower.play_next (S n) env forced w)
    with (MusicPower.play_next_body (MusicPower.play_next n env false) env forced w).
  unfold MusicPower.play_next_body. rewrite Hg.
  destruct (reconnect_player_ok env w Hc) as (w' & -> & Hst & Hlk & Hf).
  rewrite (gs_found gid w' s) by congruence.
  rewrite Hlk, Hl. rewrite <- Hf.
  pose proof (fun track s0 =>
    start_track_healthy_file gid (MusicPower.play_next n env false) env track s0
      (set_lock true w') Hh) as Hstart.
  unfold advance.
  destruct (now s) as [cur|] eqn:Hnow.
  - destruct ((loop s =? LoopMode.ONE) && negb forced) eqn:Hone.
    + rewrite <- (set_now_same s cur Hnow) at 2. exact (Hstart cur s).
    + destruct (queue s) as [|next rest] eqn:Hq.
      * reflexivity.
      * simpl. rewrite Hnow.
        destruct ((loop s =? LoopMode.ALL) && negb forced).
        -- exact (Hstart next (set_queue (rest ++ [cur]) s)).
        -- exact (Hstart next (set_queue rest s)).
  - destruct (queue s) as [|next rest] eqn:Hq.
    + reflexivity.
    + simpl. rewrite Hnow. exact (Hstart next (set_queue rest s)).
Qed.

(** X10. [play] while the voice client is silent, in an idle session
    with an empty queue, with sources that start and a search that finds
    [first :: others]: [first] begins at once, marked with the caller's
    id, the others stay queued in the order found, the lock is free again
    and the panel reads [first] as playing. *)
Theorem play_while_silent_starts_first (gid : Z) (n : nat) (env : Env) (query : string)
    (w : World) (s : GuildState) (vc : VoiceClient) (first : Track) (others : list Track) :
  Healthy gid env -> voice_client env = Some vc ->
  is_playing vc = false -> is_paused vc = false ->
  lock_locked w = false -> states w !! gid = Some s ->
  now s = None -> queue s = [] ->
  search env query = inr (first :: others) ->
  let r := MusicPower.play (S n) env query w in
  fst r = Returned
  /\ now_playing gid (snd r) = Some (requested_by_user (user_id env) first)
  /\ queue_of gid (snd r) = requested_by_user (user_id env) <$> others
  /\ lock_locked (snd r) = false
  /\ AdminApp.get_state_for_guild gid (state_file (snd r)) !! "title"
     = Some (JStr (title first)).
Proof.
  intros Hh Hvc Hp Hpa Hl Hs Hnow Hq Hsearch. pose proof Hh as [Hg Hc _ _].
  cbv zeta. unfold MusicPower.play. rewrite Hg, Hvc.
  rewrite (gs_found gid (emit ResponseDefer w) s Hs), Hsearch, Hp, Hpa.
  cbv zeta. simpl andb. cbv iota.
  pose (s2 := set_queue (queue s ++ (requested_by_user (user_id env) <$> first :: others))
                (set_last_text_channel_id (channel_id env) s)).
  match goal with |- context [MusicPower.play_next (S n) env false ?x] => set (w2 := x) end.
  assert (Hs2 : states w2 !! gid = Some s2) by (unfold w2; apply lookup_insert_eq).
  assert (Hl2 : lock_locked w2 = false) by exact Hl.
  pose proof (play_next_healthy_file gid n env false w2 s2 Hh Hl2 Hs2) as Hfile.
  destruct (play_next_healthy gid n env false w2 s2 Hh Hl2 Hs2) as (w3 & Hr & Hst & Hl3).
  rewrite Hr in Hfile |- *. simpl in Hfile. simpl fst. simpl snd.
  assert (Hadv : advance false (clock env 0%nat) s2
                 = set_now (Some (requested_by_user (user_id env) first))
                     (set_queue (requested_by_user (user_id env) <$> others) s2)).
  { unfold advance. change (now s2) with (now s). rewrite Hnow.
    change (queue s2) with (queue s ++ (requested_by_user (user_id env) <$> first :: others)).
    rewrite Hq. reflexivity. }
  rewrite Hadv in Hst, Hfile.
  unfold now_playing, queue_of. simpl states. simpl state_file.
  rewrite Hst, lookup_insert_eq, Hfile.
  repeat split; try assumption.
  unfold AdminApp.get_state_for_guild, _update_state, _save_json_state.
  rewrite lookup_insert_eq. reflexivity.
Qed.

Lemma play_while_silent_starts_first_witness :
  let r := MusicPower.play 1 (Sample.env_radio (Some Sample.vc_silent)) "lofi"
             (Sample.world (Sample.session LoopMode.OFF None [])) in
  now_playing 7 (snd r) = Some (requested_by_user 42 Sample.B)
  /\ queue_of 7 (snd r) = [requested_by_user 42 Sample.C].
Proof.
  destruct (play_while_silent_starts_first 7 0 (Sample.env_radio (Some Sample.vc_silent))
              "lofi" (Sample.world (Sample.session LoopMode.OFF None []))
              (Sample.session LoopMode.OFF None []) Sample.vc_silent Sample.B [Sample.C]
              (sample_env_radio_healthy _) eq_refl eq_refl eq_refl eq_refl eq_refl
              eq_refl eq_refl eq_refl) as (_ & H2 & H3 & _).
  split; [exact H2 | exact H3].
Defined.


(** ** Reading the control file *)

Lemma str_app_assoc (a b c : string) : (a +:+ b) +:+ c = a +:+ (b +:+ c).
Proof.
  induction a as [|x a IH]; [reflexivity|].
  change (String x ((a +:+ b) +:+ c) = String x (a +:+ (b +:+ c))). now rewrite IH.
Qed.

Lemma str_app_nil_r (a : string) : a +:+ "" = a.
Proof.
  induction a as [|x a IH]; [reflexivity|].
  change (String x (a +:+ "") = String x a). now rewrite IH.
Qed.

Lemma concat_lines_cons (line : string) (lines : list string) :
  concat_lines (line :: lines) = line +:+ concat_lines lines.
Proof. reflexivity. Qed.

Lemma readlines_from_concat (s : string) :
  forall cur, has_cr s = false ->
    concat_lines (MusicPower.readlines_from cur s) = cur +:+ s
    /\ Forall (fun line => line <> "") (MusicPower.readlines_from cur s).
Proof.
  induction s as [|c rest IH]; intros cur Hcr.
  - simpl MusicPower.readlines_from. destruct (String.eqb_spec cur "").
    + subst. split; [reflexivity | constructor].
    + split; [reflexivity | repeat constructor; assumption].
  - simpl in Hcr. apply orb_false_iff in Hcr as [Hc Hrest].
    simpl MusicPower.readlines_from. rewrite Hc.
    destruct (Ascii.eqb_spec c MusicPower.LF) as [->|Hlf].
    + destruct (IH "" Hrest) as [H1 H2]. rewrite concat_lines_cons, H1, str_app_assoc.
      split; [reflexivity|]. constructor; [|exact H2].
      destruct cur; discriminate.
    + destruct (IH (cur +:+ String c "") Hrest) as [H1 H2].
      split; [rewrite H1, str_app_assoc; reflexivity | exact H2].
Qed.

(** [readlines] loses nothing: for a text without carriage returns
    the lines it returns, put end to end, are the text, and none of them
    is empty. *)
Theorem readlines_loses_nothing (s : string) :
  has_cr s = false ->
  concat_lines (MusicPower.readlines s) = s
  /\ Forall (fun line => line <> "") (MusicPower.readlines s).
Proof. intros Hcr. exact (readlines_from_concat s "" Hcr). Qed.

Lemma readlines_loses_nothing_witness :
  concat_lines (MusicPower.readlines (with_lf Sample.skip_record +:+ "pending"))
  = with_lf Sample.skip_record +:+ "pending".
Proof.
  destruct (readlines_loses_nothing (with_lf Sample.skip_record +:+ "pending") eq_refl)
    as [H _].
  exact H.
Defined.

Lemma readlines_from_record (r : string) :
  forall cur rest, has_newline r = false ->
    MusicPower.readlines_from cur (r +:+ String MusicPower.LF rest)
    = (cur +:+ with_lf r) :: MusicPower.readlines_from "" rest.
Proof.
  induction r as [|c r IH]; intros cur rest Hnl.
  - reflexivity.
  - simpl in Hnl. apply orb_false_iff in Hnl as [Hc Hr].
    apply orb_false_iff in Hc as [Hlf Hcr].
    change (String c r +:+ String MusicPower.LF rest)
      with (String c (r +:+ String MusicPower.LF rest)).
    simpl MusicPower.readlines_from. rewrite Hlf, Hcr, (IH _ _ Hr).
    f_equal. unfold with_lf. rewrite str_app_assoc. reflexivity.
Qed.

Lemma readlines_records (records : list string) :
  Forall (fun r => has_newline r = false) records ->
  MusicPower.readlines (concat_lines (with_lf <$> records)) = with_lf <$> records.
Proof.
  unfold MusicPower.readlines. induction 1 as [|r rs Hr _ IH]; [reflexivity|].
  rewrite fmap_cons, concat_lines_cons. unfold with_lf at 1. rewrite str_app_assoc.
  change (String MusicPower.LF "" +:+ concat_lines (with_lf <$> rs))
    with (String MusicPower.LF (concat_lines (with_lf <$> rs))).
  rewrite (readlines_from_record r "" _ Hr), IH. reflexivity.
Qed.

Lemma write_all_content (records : list string) :
  forall content,
    write_all records (Some content) = Some (content +:+ concat_lines (with_lf <$> records)).
Proof.
  induction records as [|r rs IH]; intros content.
  - simpl. now rewrite str_app_nil_r.
  - change (write_all (r :: rs) (Some content))
      with (write_all rs (Some (content +:+ with_lf r))).
    rewrite IH, fmap_cons, concat_lines_cons. now rewrite str_app_assoc.
Qed.

(** X11. Commands written to a control file that did not exist, each
    without a raw line break, are all returned by the first cycle of the
    watcher, one line a command, in the order written; the file is left
    empty and the cursor at the size it had. *)
Theorem first_cycle_delivers_every_command (records : list string) :
  Forall (fun r => has_newline r = false) records -> records <> [] ->
  MusicPower.watcher_read 0 (write_all records None)
  = (with_lf <$> records,
     String.length (concat_lines (with_lf <$> records)),
     Some "").
Proof.
  intros Hnl Hne. destruct records as [|r rs]; [congruence|].
  assert (Hfile : write_all (r :: rs) None = Some (concat_lines (with_lf <$> r :: rs))).
  { change (write_all (r :: rs) None) with (write_all rs (Some ("" +:+ with_lf r))).
    rewrite write_all_content. reflexivity. }
  rewrite Hfile. unfold MusicPower.watcher_read.
  change (MusicPower.seek 0 (concat_lines (with_lf <$> r :: rs)))
    with (concat_lines (with_lf <$> r :: rs)).
  now rewrite (readlines_records (r :: rs) Hnl).
Qed.

Lemma first_cycle_delivers_every_command_witness :
  MusicPower.watcher_read 0 (write_all [Sample.skip_record; Sample.skip_record] None)
  = ([with_lf Sample.skip_record; with_lf Sample.skip_record], 94%nat, Some "").
Proof.
  rewrite (first_cycle_delivers_every_command [Sample.skip_record; Sample.skip_record]);
    [reflexivity | repeat constructor | discriminate].
Defined.

Lemma watcher_drops_short_command_witness :
  MusicPower.watcher_read 47 (MusicPower._append_control Sample.skip_record (Some ""))
  = ([], 47%nat, Some "").
Proof. apply (watcher_drops_short_command 47 Sample.skip_record). simpl. lia. Defined.

(** ** Replaying *)

(** X12. [replay] puts the current track back at the front of the queue
    and publishes nothing; the advance that follows, forced by a skip in
    any loop mode or natural with the loop off, plays that track again and
    leaves the queue as it was before [replay]. *)
Theorem replay_then_advance_plays_again (gid : Z) (n : nat) (env : Env) (w : World)
    (s : GuildState) (cur : Track) :
  guild env = Some gid -> connect_player env = None ->
  lock_locked w = false -> states w !! gid = Some s -> now s = Some cur ->
  let w1 := snd (fst (MusicPower.replay env w)) in
  queue_of gid w1 = cur :: queue s
  /\ state_file w1 = state_file w
  /\ (let w2 := snd (MusicPower.play_next (S (S n)) env true w1) in
      now_playing gid w2 = Some cur /\ queue_of gid w2 = queue s)
  /\ (loop s = LoopMode.OFF ->
      let w2 := snd (MusicPower.play_next (S (S n)) env false w1) in
      now_playing gid w2 = Some cur /\ queue_of gid w2 = queue s).
Proof.
  intros Hg Hc Hl Hs Hnow. cbv zeta.
  unfold MusicPower.replay. rewrite Hg, (gs_found gid w s Hs), Hnow. cbn [fst snd].
  set (s1 := set_queue (cur :: queue s) s).
  assert (Hs1 : states (put gid s1 w) !! gid = Some s1) by apply lookup_insert_eq.
  split; [unfold queue_of; now rewrite Hs1|]. split; [reflexivity|].
  split; [|intros Hoff].
  - destruct (play_next_advance gid n env true (put gid s1 w) s1 Hg Hc Hl Hs1) as [Hst _].
    unfold now_playing, queue_of. rewrite Hst, lookup_insert_eq.
    unfold advance. change (now s1) with (now s). rewrite Hnow.
    change (queue s1) with (cur :: queue s). rewrite !andb_false_r. split; reflexivity.
  - destruct (play_next_advance gid n env false (put gid s1 w) s1 Hg Hc Hl Hs1) as [Hst _].
    unfold now_playing, queue_of. rewrite Hst, lookup_insert_eq.
    unfold advance. change (now s1) with (now s). rewrite Hnow.
    change (queue s1) with (cur :: queue s). change (loop s1) with (loop s).
    rewrite Hoff. split; reflexivity.
Qed.

Lemma replay_then_advance_plays_again_witness :
  let w := Sample.world (Sample.session LoopMode.ALL (Some Sample.A) [Sample.B]) in
  let w1 := snd (fst (MusicPower.replay (Sample.env (Some Sample.vc_playing)) w)) in
  let w2 := snd (MusicPower.play_next 2 (Sample.env (Some Sample.vc_playing)) true w1) in
  now_playing 7 w2 = Some Sample.A /\ queue_of 7 w2 = [Sample.B].
Proof.
  destruct (replay_then_advance_plays_again 7 0 (Sample.env (Some Sample.vc_playing))
              (Sample.world (Sample.session LoopMode.ALL (Some Sample.A) [Sample.B]))
              (Sample.session LoopMode.ALL (Some Sample.A) [Sample.B]) Sample.A
              eq_refl eq_refl eq_refl eq_refl eq_refl) as (_ & _ & H & _).
  exact H.
Defined.

(** ** Commands of the control file *)

(** X13. The [loop] command of the control file is a toggle that never
    selects [LoopMode.ALL]: a session with the loop off gets ONE, any other
    gets OFF; so two toggles restore OFF and ONE, while a session that was
    on ALL ends on ONE. The queue and the current track are untouched and
    the panel reads the new flag. *)
Theorem control_loop_toggles_off_and_one (gid : Z) (w : World) (s : GuildState) :
  states w !! gid = Some s ->
  let w1 := snd (MusicPower.control_loop gid w) in
  let w2 := snd (MusicPower.control_loop gid w1) in
  states w1 !! gid = Some (set_loop (if loop s =? 0 then LoopMode.ONE else LoopMode.OFF) s)
  /\ states w2 !! gid = Some (set_loop (if loop s =? 0 then LoopMode.OFF else LoopMode.ONE) s)
  /\ queue_of gid w1 = queue s /\ now_playing gid w1 = now s
  /\ AdminApp.get_state_for_guild gid (state_file w1) !! "loop"
     = Some (JBool (loop s =? 0)).
Proof.
  intros Hs. cbv zeta.
  set (s1 := set_loop (if loop s =? 0 then LoopMode.ONE else LoopMode.OFF) s).
  set (w1 := publish gid (Some {["loop" := JBool (negb (loop s1 =? LoopMode.OFF))]})
               (put gid s1 w)).
  assert (H1 : MusicPower.control_loop gid w = (Returned, w1))
    by (unfold MusicPower.control_loop; now rewrite (gs_found gid w s Hs)).
  rewrite H1. cbn [snd].
  assert (Hs1 : states w1 !! gid = Some s1) by apply lookup_insert_eq.
  split; [exact Hs1|]. split.
  - unfold MusicPower.control_loop. rewrite (gs_found gid w1 s1 Hs1). cbn [snd].
    simpl states. rewrite lookup_insert_eq. f_equal. subst s1.
    destruct (loop s =? 0); reflexivity.
  - unfold queue_of, now_playing. rewrite Hs1. split; [reflexivity|]. split; [reflexivity|].
    subst w1. unfold AdminApp.get_state_for_guild. simpl state_file.
    unfold _update_state, _save_json_state. rewrite lookup_insert_eq. simpl default.
    rewrite lookup_singleton_eq. subst s1. destruct (loop s =? 0); reflexivity.
Qed.

Lemma control_loop_toggles_off_and_one_witness :
  let w := Sample.world (Sample.session LoopMode.ALL (Some Sample.A) [Sample.B]) in
  states (snd (MusicPower.control_loop 7 (snd (MusicPower.control_loop 7 w)))) !! 7
  = Some (Sample.session LoopMode.ONE (Some Sample.A) [Sample.B]).
Proof.
  destruct (control_loop_toggles_off_and_one 7
              (Sample.world (Sample.session LoopMode.ALL (Some Sample.A) [Sample.B]))
              (Sample.session LoopMode.ALL (Some Sample.A) [Sample.B]) eq_refl)
    as (_ & H & _).
  exact H.
Defined.

Lemma list_insert_at_front {A} (x : A) (q : list A) : list_insert_at 0 x q = x :: q.
Proof. unfold list_insert_at. now rewrite take_0, drop_0. Qed.

(** X14. The [queue_play_index] command with a valid index and sources
    that start: the track at that position becomes the current one, in any
    loop mode and whatever was playing (which is dropped, as for a skip),
    and the other tracks stay queued in their order. An index out of range
    changes nothing. *)
Theorem queue_play_index_plays_chosen_track (gid : Z) (n : nat) (env : Env)
    (payload : gmap string JVal) (w : World) (s : GuildState) (idx : Z) :
  Healthy gid env -> lock_locked w = false -> states w !! gid = Some s ->
  let r := MusicPower.control_queue_play_index (S n) env gid
             (<["index" := JInt idx]> payload) w in
  if valid_index idx (queue s)
  then fst r = Returned
       /\ now_playing gid (snd r) = queue s !! position idx
       /\ is_Some (now_playing gid (snd r))
       /\ queue_of gid (snd r) = delete (position idx) (queue s)
       /\ lock_locked (snd r) = false
  else r = (Returned, w).
Proof.
  intros Hh Hl Hs. cbv zeta. unfold MusicPower.control_queue_play_index.
  rewrite (gs_found gid w s Hs), lookup_insert_eq. simpl default. simpl MusicPower.py_int.
  cbv beta iota.
  change ((1 <=? idx) && (idx <=? Z.of_nat (length (queue s))))
    with (valid_index idx (queue s)).
  destruct (valid_index idx (queue s)) eqn:Hv; [|reflexivity].
  apply valid_index_position in Hv.
  destruct (list_pop_in_range (position idx) (queue s) Hv) as (t & Ht & Hpop).
  unfold position in Hpop. rewrite Hpop. fold (position idx).
  rewrite list_insert_at_front.
  set (s1 := set_queue (t :: delete (position idx) (queue s)) s).
  match goal with |- context [MusicPower.play_next (S n) env true ?x] => set (w1 := x) end.
  assert (Hs1 : states w1 !! gid = Some s1)
    by (unfold w1; destruct (voice_client env); apply lookup_insert_eq).
  assert (Hl1 : lock_locked w1 = false)
    by (unfold w1; destruct (voice_client env); exact Hl).
  destruct (play_next_healthy gid n env true w1 s1 Hh Hl1 Hs1) as (w2 & -> & Hst & Hl2).
  cbn [fst snd]. unfold now_playing, queue_of. rewrite Hst, lookup_insert_eq.
  assert (Hadv : advance true (clock env 0%nat) s1
                 = set_now (Some t) (set_queue (delete (position idx) (queue s)) s1)).
  { unfold advance. change (queue s1) with (t :: delete (position idx) (queue s)).
    destruct (now s1); rewrite ?andb_false_r; reflexivity. }
  rewrite Hadv, Ht. repeat split; [eauto | exact Hl2].
Qed.

Lemma queue_play_index_plays_chosen_track_witness :
  let r := MusicPower.control_queue_play_index 1 (Sample.env (Some Sample.vc_playing)) 7
             {["index" := JInt 2]}
             (Sample.world (Sample.session LoopMode.ONE (Some Sample.A)
                              [Sample.A; Sample.B; Sample.C])) in
  now_playing 7 (snd r) = Some Sample.B /\ queue_of 7 (snd r) = [Sample.A; Sample.C].
Proof.
  pose proof (queue_play_index_plays_chosen_track 7 0 (Sample.env (Some Sample.vc_playing)) ∅
                (Sample.world (Sample.session LoopMode.ONE (Some Sample.A)
                                 [Sample.A; Sample.B; Sample.C]))
                (Sample.session LoopMode.ONE (Some Sample.A) [Sample.A; Sample.B; Sample.C])
                2 (sample_env_healthy _) eq_refl eq_refl) as H.
  destruct H as (_ & H2 & _ & H4 & _). split; [exact H2 | exact H4].
Defined.

Lemma appendleft_reversed_prepends (tracks queue : list Track) :
  MusicPower.appendleft_reversed tracks queue
  = (MusicPower.requested_by_nobody <$> tracks) ++ queue.
Proof.
  unfold MusicPower.appendleft_reversed. induction tracks as [|t ts IH]; [reflexivity|].
  simpl rev. rewrite fold_left_app. simpl. now rewrite IH.
Qed.

(** X15. The [playtop] command while a track is current, with a search
    that finds tracks: they are put in front of the queue in the order
    found (the reversal and the insertions at the front cancel out), each
    with requester 0; the current track is untouched, nothing is started,
    and the panel reads the new queue length. *)
Theorem playtop_prepends_in_order (gid : Z) (fuel : nat) (env : Env) (q : string)
    (w : World) (s : GuildState) (cur : Track) (tracks : list Track) :
  states w !! gid = Some s -> now s = Some cur -> q <> "" ->
  search env q = inr tracks ->
  let r := MusicPower.control_playtop fuel env gid q w in
  fst r = Returned
  /\ queue_of gid (snd r) = (MusicPower.requested_by_nobody <$> tracks) ++ queue s
  /\ now_playing gid (snd r) = Some cur
  /\ effects (snd r) = effects w
  /\ lock_locked (snd r) = lock_locked w
  /\ AdminApp.get_state_for_guild gid (state_file (snd r)) !! "queue_len"
     = Some (JInt (Z.of_nat (length tracks + length (queue s)))).
Proof.
  intros Hs Hnow Hq Hsearch. cbv zeta. unfold MusicPower.control_playtop.
  rewrite (gs_found gid w s Hs).
  destruct (String.eqb_spec q ""); [contradiction|].
  rewrite Hsearch, Hnow, appendleft_reversed_prepends.
  set (s1 := set_queue _ s).
  rewrite (gs_found gid (put gid s1 w) s1) by apply lookup_insert_eq.
  cbn [fst snd]. unfold queue_of, now_playing. simpl states. rewrite lookup_insert_eq.
  repeat split; [exact Hnow|].
  unfold AdminApp.get_state_for_guild. simpl state_file.
  unfold _update_state, _save_json_state. rewrite lookup_insert_eq. simpl default.
  unfold _snapshot_state. change (now s1) with (now s). rewrite Hnow.
  unfold now_fields. rewrite !lookup_insert_ne by discriminate.
  rewrite lookup_insert_eq. subst s1. simpl queue.
  now rewrite length_app, length_fmap.
Qed.

Lemma playtop_prepends_in_order_witness :
  queue_of 7 (snd (MusicPower.control_playtop 0 (Sample.env_radio (Some Sample.vc_playing)) 7
                     "lofi"
                     (Sample.world (Sample.session LoopMode.OFF (Some Sample.A) [Sample.A]))))
  = [Sample.B; Sample.C; Sample.A].
Proof.
  destruct (playtop_prepends_in_order 7 0 (Sample.env_radio (Some Sample.vc_playing)) "lofi"
              (Sample.world (Sample.session LoopMode.OFF (Some Sample.A) [Sample.A]))
              (Sample.session LoopMode.OFF (Some Sample.A) [Sample.A]) Sample.A
              [Sample.B; Sample.C] eq_refl eq_refl) as (_ & H & _);
    [discriminate | reflexivity |].
  exact H.
Defined.

(** ** The queue listing *)

Lemma py_ceil_div_10 (n : Z) :
  0 < n ->
  let pages := Z.max 1 (py_ceil_div n 10) in
  10 * (pages - 1) < n <= 10 * pages.
Proof.
  intros Hn. cbv zeta. unfold py_ceil_div.
  pose proof (Z.div_mod (- n) 10 ltac:(lia)) as Hd.
  pose proof (Z.mod_pos_bound (- n) 10 ltac:(lia)) as Hm.
  lia.
Qed.

Lemma queue_reply (gid : Z) (env : Env) (page : Z) (w : World) (s : GuildState) :
  guild env = Some gid -> states w !! gid = Some s -> queue s <> [] ->
  let pages := Z.max 1 (py_ceil_div (Z.of_nat (length (queue s))) 10) in
  let p := Z.max 1 (Z.min pages page) in
  MusicPower.queue env page w
  = (Returned, w,
     [ReplyQueuePage p pages
        (imap (fun i t => mkQueueField ((p - 1) * 10 + 1 + Z.of_nat i) (title t)
                            (duration_str t))
           (take 10 (drop (Z.to_nat ((p - 1) * 10)) (queue s))))]).
Proof.
  intros Hg Hs Hq. cbv zeta. unfold MusicPower.queue.
  rewrite Hg, (gs_found gid w s Hs). cbv beta iota.
  destruct (queue s) eqn:E; [contradiction|]. reflexivity.
Qed.

(** X16. The page built by [queue] for a non-empty queue: the number of
    pages is the queue length over ten, rounded up; the page shown is the
    one asked for when it exists and the nearest existing one otherwise;
    it carries between one and ten fields, and the field at place [i] has
    the number [10 (p - 1) + i + 1], a valid index for [remove] and [move],
    with the title and the duration of the track at that position of the
    queue. The session is not changed. *)
Theorem queue_page_lists_tracks_in_order (gid : Z) (env : Env) (page : Z)
    (w : World) (s : GuildState) :
  guild env = Some gid -> states w !! gid = Some s -> queue s <> [] ->
  exists p pages fields,
    MusicPower.queue env page w = (Returned, w, [ReplyQueuePage p pages fields])
    /\ 10 * (pages - 1) < Z.of_nat (length (queue s)) <= 10 * pages
    /\ 1 <= p <= pages
    /\ (1 <= page <= pages -> p = page)
    /\ (page < 1 -> p = 1) /\ (pages < page -> p = pages)
    /\ (0 < length fields <= 10)%nat
    /\ forall i f, fields !! i = Some f ->
         qf_number f = 10 * (p - 1) + 1 + Z.of_nat i
         /\ valid_index (qf_number f) (queue s) = true
         /\ exists t, queue s !! position (qf_number f) = Some t
                      /\ qf_title f = title t /\ qf_duration f = duration_str t.
Proof.
  intros Hg Hs Hq.
  assert (Hlen : 0 < Z.of_nat (length (queue s)))
    by (destruct (queue s); [contradiction | simpl; lia]).
  pose proof (py_ceil_div_10 _ Hlen) as Hpages. cbv zeta in Hpages.
  pose proof (queue_reply gid env page w s Hg Hs Hq) as Hr. cbv zeta in Hr.
  set (pages := Z.max 1 (py_ceil_div (Z.of_nat (length (queue s))) 10)) in *.
  set (p := Z.max 1 (Z.min pages page)) in *.
  assert (Hp : 1 <= p <= pages) by lia.
  eexists p, pages, _. split; [exact Hr|].
  split; [exact Hpages|]. split; [exact Hp|].
  split; [lia|]. split; [lia|]. split; [lia|].
  split.
  - rewrite length_imap, length_take, length_drop. lia.
  - intros i f Hf. apply list_lookup_imap_Some in Hf as (t & Ht & ->).
    apply lookup_take_Some in Ht as [Ht Hi]. rewrite lookup_drop in Ht.
    cbn [qf_number qf_title qf_duration].
    assert (Hlt : (Z.to_nat ((p - 1) * 10) + i < length (queue s))%nat)
      by (apply lookup_lt_is_Some; eauto).
    split; [lia|]. split.
    + unfold valid_index. apply andb_true_iff. split; [apply Z.leb_le | apply Z.leb_le]; lia.
    + exists t. split; [|split; reflexivity].
      unfold position. rewrite <- Ht. f_equal. lia.
Qed.

Lemma queue_page_lists_tracks_in_order_witness :
  exists p pages fields,
    MusicPower.queue (Sample.env None) 5
      (Sample.world (Sample.session LoopMode.OFF None [Sample.A; Sample.B]))
    = (Returned, Sample.world (Sample.session LoopMode.OFF None [Sample.A; Sample.B]),
       [ReplyQueuePage p pages fields])
    /\ p = 1 /\ pages = 1 /\ length fields = 2%nat.
Proof.
  destruct (queue_page_lists_tracks_in_order 7 (Sample.env None) 5
              (Sample.world (Sample.session LoopMode.OFF None [Sample.A; Sample.B]))
              (Sample.session LoopMode.OFF None [Sample.A; Sample.B])
              eq_refl eq_refl ltac:(discriminate))
    as (p & pages & fields & Hr & _).
  exists p, pages, fields. split; [exact Hr|].
  vm_compute in Hr. injection Hr as <- <- <-. repeat split.
Defined.

(** X17. Every queued track can be looked up: the track at position [k]
    (from 0) is shown on page [k / 10 + 1], at place [k mod 10], under the
    number [k + 1]. *)
Theorem queue_pages_cover_queue (gid : Z) (env : Env) (w : World) (s : GuildState)
    (k : nat) (t : Track) :
  guild env = Some gid -> states w !! gid = Some s -> queue s !! k = Some t ->
  exists pages fields,
    MusicPower.queue env (Z.of_nat k / 10 + 1) w
    = (Returned, w, [ReplyQueuePage (Z.of_nat k / 10 + 1) pages fields])
    /\ fields !! (k mod 10)%nat
       = Some (mkQueueField (Z.of_nat k + 1) (title t) (duration_str t)).
Proof.
  intros Hg Hs Hk.
  assert (Hq : queue s <> []) by (intros E; rewrite E in Hk; discriminate).
  assert (Hkl : (k < length (queue s))%nat) by (apply lookup_lt_is_Some; eauto).
  pose proof (py_ceil_div_10 (Z.of_nat (length (queue s))) ltac:(lia)) as Hpages.
  cbv zeta in Hpages.
  pose proof (queue_reply gid env (Z.of_nat k / 10 + 1) w s Hg Hs Hq) as Hr. cbv zeta in Hr.
  set (pages := Z.max 1 (py_ceil_div (Z.of_nat (length (queue s))) 10)) in *.
  pose proof (Z.div_mod (Z.of_nat k) 10 ltac:(lia)) as Hd.
  pose proof (Z.mod_pos_bound (Z.of_nat k) 10 ltac:(lia)) as Hm.
  assert (Hpg : Z.max 1 (Z.min pages (Z.of_nat k / 10 + 1)) = Z.of_nat k / 10 + 1) by lia.
  rewrite Hpg in Hr. eexists pages, _. split; [exact Hr|].
  rewrite list_lookup_imap.
  assert (Hmod : Z.of_nat (k mod 10) = Z.of_nat k mod 10)
    by (rewrite Nat2Z.inj_mod; reflexivity).
  rewrite lookup_take_lt by (apply Nat.mod_upper_bound; lia).
  rewrite lookup_drop.
  replace (Z.to_nat ((Z.of_nat k / 10 + 1 - 1) * 10) + k mod 10)%nat with k by lia.
  rewrite Hk. unfold fmap, option_fmap, option_map. f_equal. f_equal. lia.
Qed.

Lemma queue_pages_cover_queue_witness :
  exists pages fields,
    MusicPower.queue (Sample.env None) (Z.of_nat 1 / 10 + 1)
      (Sample.world (Sample.session LoopMode.OFF None [Sample.A; Sample.B]))
    = (Returned, Sample.world (Sample.session LoopMode.OFF None [Sample.A; Sample.B]),
       [ReplyQueuePage (Z.of_nat 1 / 10 + 1) pages fields])
    /\ fields !! (1 mod 10)%nat
       = Some (mkQueueField (Z.of_nat 1 + 1) (title Sample.B) (duration_str Sample.B)).
Proof.
  exact (queue_pages_cover_queue 7 (Sample.env None)
           (Sample.world (Sample.session LoopMode.OFF None [Sample.A; Sample.B]))
           (Sample.session LoopMode.OFF None [Sample.A; Sample.B]) 1 Sample.B
           eq_refl eq_refl eq_refl).
Defined.

(** ** The admin panel *)

Lemma snapshot_queue (limit : Z) (time : Q) (s : GuildState) :
  _snapshot_state limit time s !! "queue"
  = Some (JQueue ((fun t => mkQueueItem (title t) (webpage_url t) (duration t))
                    <$> py_slice_to limit (queue s)))
  /\ _snapshot_state limit time s !! "queue_len" = Some (JInt (Z.of_nat (length (queue s)))).
Proof.
  unfold _snapshot_state, now_fields. destruct (now s); split; reflexivity.
Qed.

Lemma py_slice_to_take {A} (n : Z) (xs : list A) :
  0 <= n -> py_slice_to n xs = take (Z.to_nat n) xs.
Proof. intros Hn. unfold py_slice_to. destruct (Z.ltb_spec n 0); [lia | reflexivity]. Qed.

(** X18. The panel's [dj_state] on the snapshot the bot published for a
    guild, with the export limits of the two processes non-negative: it
    never fails, every key but the queue is served as published, and the
    queue served is the first tracks of the session's queue, in order, as
    many as the smaller limit allows, while [queue_len] stays the full
    length. With equal limits the document is served unchanged. *)
Theorem dj_state_serves_published_snapshot (gid bot_limit panel_limit : Z) (time : Q)
    (s : GuildState) (file : option (gmap string (gmap string JVal))) :
  0 <= bot_limit -> 0 <= panel_limit ->
  let snapshot := _snapshot_state bot_limit time s in
  let preview :=
    (fun t => mkQueueItem (title t) (webpage_url t) (duration t))
      <$> take (Z.to_nat (Z.min bot_limit panel_limit)) (queue s) in
  AdminApp.dj_state panel_limit gid (_update_state gid (Some snapshot) file)
  = inr (<["queue" := JQueue preview]> snapshot)
  /\ (length preview <= length (queue s))%nat
  /\ Z.of_nat (length preview) <= panel_limit
  /\ <["queue" := JQueue preview]> snapshot !! "queue_len"
     = Some (JInt (Z.of_nat (length (queue s))))
  /\ (bot_limit <= panel_limit -> <["queue" := JQueue preview]> snapshot = snapshot).
Proof.
  intros Hb Hp. cbv zeta.
  destruct (snapshot_queue bot_limit time s) as [Hq Hlen].
  set (snapshot := _snapshot_state bot_limit time s) in *.
  set (f := fun t => mkQueueItem (title t) (webpage_url t) (duration t)) in *.
  rewrite py_slice_to_take in Hq by exact Hb.
  assert (Hcut : py_slice_to panel_limit (f <$> take (Z.to_nat bot_limit) (queue s))
                 = f <$> take (Z.to_nat (Z.min bot_limit panel_limit)) (queue s)).
  { rewrite py_slice_to_take by exact Hp. rewrite <- fmap_take, take_take.
    do 2 f_equal. lia. }
  split; [|split; [|split; [|split]]].
  - unfold AdminApp.dj_state, AdminApp.get_state_for_guild, _update_state, _save_json_state.
    rewrite lookup_insert_eq. simpl default.
    rewrite bool_decide_eq_false_2
      by (intros E; rewrite E, lookup_empty in Hq; discriminate).
    rewrite Hq.
    destruct (f <$> take (Z.to_nat bot_limit) (queue s)) as [|i l] eqn:E.
    + simpl AdminApp.jval_truthy. cbv iota. rewrite <- Hcut.
      rewrite py_slice_to_take by exact Hp. now rewrite take_nil.
    + simpl AdminApp.jval_truthy. cbv iota. now rewrite <- Hcut.
  - rewrite length_fmap, length_take. lia.
  - rewrite length_fmap, length_take. lia.
  - rewrite lookup_insert_ne by discriminate. exact Hlen.
  - intros Hle. apply insert_id. rewrite Hq.
    now replace (Z.min bot_limit panel_limit) with bot_limit by lia.
Qed.

Lemma dj_state_serves_published_snapshot_witness :
  AdminApp.dj_state 1 7
    (_update_state 7
       (Some (_snapshot_state 100 (1000 # 1)
                (Sample.session LoopMode.OFF (Some Sample.A) [Sample.B; Sample.C])))
       None)
  = inr (<["queue" := JQueue [mkQueueItem (title Sample.B) (webpage_url Sample.B)
                                 (duration Sample.B)]]>
           (_snapshot_state 100 (1000 # 1)
              (Sample.session LoopMode.OFF (Some Sample.A) [Sample.B; Sample.C]))).
Proof.
  destruct (dj_state_serves_published_snapshot 7 100 1 (1000 # 1)
              (Sample.session LoopMode.OFF (Some Sample.A) [Sample.B; Sample.C]) None
              ltac:(lia) ltac:(lia)) as [H _].
  exact H.
Defined.

(** X19. What [dj_control] lets through to the control file: the caller
    is logged in; unless they are an administrator the action is [play] or
    [playtop]; the action is written as sent; the payload written always
    carries a [guild_id], the one sent when it was truthy and otherwise the
    number of the user's own id, and its other keys are those sent. *)
Theorem dj_control_writes_only_permitted (int_of : string -> option Z)
    (user : option AdminApp.SessionUser) (action : JVal) (payload : gmap string JVal)
    (written_action : JVal) (written : gmap string JVal) :
  AdminApp.dj_control int_of user action payload = inr (written_action, written) ->
  exists u,
    user = Some u
    /\ (AdminApp.is_admin u = false -> action = JStr "play" \/ action = JStr "playtop")
    /\ written_action = action
    /\ (exists v, written !! "guild_id" = Some v
                  /\ ((payload !! "guild_id" = Some v /\ AdminApp.jval_truthy v = true)
                      \/ (exists n, int_of (AdminApp.session_id u) = Some n
                                    /\ v = JInt n)))
    /\ forall k, k <> "guild_id" -> written !! k = payload !! k.
Proof.
  unfold AdminApp.dj_control. intros H.
  destruct user as [u|]; [|discriminate]. exists u. split; [reflexivity|].
  destruct (negb (AdminApp.is_admin u)
            && negb match action with
                    | JStr a => String.eqb a "play" || String.eqb a "playtop"
                    | _ => false
                    end) eqn:Hperm; [discriminate|].
  split.
  { intros Hadm. rewrite Hadm in Hperm. simpl in Hperm.
    apply negb_false_iff in Hperm. destruct action; try discriminate.
    apply orb_true_iff in Hperm as [E|E]; apply String.eqb_eq in E; subst; auto. }
  destruct (payload !! "guild_id") as [v|] eqn:Hv.
  - destruct (AdminApp.jval_truthy v) eqn:Ht.
    + injection H as <- <-. split; [reflexivity|]. split; [eauto|]. reflexivity.
    + destruct (int_of (AdminApp.session_id u)) as [n|] eqn:Hn; [|discriminate].
      injection H as <- <-. split; [reflexivity|]. split.
      * exists (JInt n). rewrite lookup_insert_eq. eauto.
      * intros k Hk. now rewrite lookup_insert_ne.
  - destruct (int_of (AdminApp.session_id u)) as [n|] eqn:Hn; [|discriminate].
    injection H as <- <-. split; [reflexivity|]. split.
    + exists (JInt n). rewrite lookup_insert_eq. eauto.
    + intros k Hk. now rewrite lookup_insert_ne.
Qed.

Lemma dj_control_writes_only_permitted_witness :
  exists u,
    Some (AdminApp.mkSessionUser "42" false) = Some u
    /\ (AdminApp.is_admin u = false -> JStr "play" = JStr "play" \/ JStr "play" = JStr "playtop")
    /\ JStr "play" = JStr "play"
    /\ (exists v, (<["guild_id" := JInt 42]> {["query" := JStr "lofi"]} : gmap string JVal)
                    !! "guild_id" = Some v
                  /\ ((({["query" := JStr "lofi"]} : gmap string JVal) !! "guild_id" = Some v
                       /\ AdminApp.jval_truthy v = true)
                      \/ (exists n, (fun _ : string => Some 42) (AdminApp.session_id u)
                                    = Some n /\ v = JInt n)))
    /\ forall k, k <> "guild_id" ->
         (<["guild_id" := JInt 42]> {["query" := JStr "lofi"]} : gmap string JVal) !! k
         = ({["query" := JStr "lofi"]} : gmap string JVal) !! k.
Proof.
  exact (dj_control_writes_only_permitted (fun _ => Some 42)
           (Some (AdminApp.mkSessionUser "42" false)) (JStr "play")
           {["query" := JStr "lofi"]} (JStr "play")
           (<["guild_id" := JInt 42]> {["query" := JStr "lofi"]}) eq_refl).
Defined.

(** ** The search backends *)

(** X20. A search of the Lavalink backend that returns tracks: the node
    is connected afterwards and no later call connects again; at most a
    hundred tracks come back, one for each of the first results of the
    node, in order; each is marked [lavalink] with requester 0, its page
    and stream addresses are the same, a stream has duration 0 and is
    listed as LIVE, and any other track has its length in whole seconds. *)
Theorem lavalink_search_tracks (node : Node) (ready : bool) (query : string)
    (tracks : list Track) (ready' : bool) :
  LavalinkBackend.search node ready query = (inr tracks, ready') ->
  ready' = true
  /\ LavalinkBackend.ensure_node node ready' = inr (true, false)
  /\ (length tracks <= 100)%nat
  /\ exists results,
       fetch_tracks node (if url_search node query then query
                          else "ytsearch:" +:+ query) = inr results
       /\ length tracks = Nat.min 100 (length results)
       /\ forall i t, tracks !! i = Some t ->
            exists p, results !! i = Some p
              /\ title t = p_title p
              /\ source t = "lavalink" /\ requested_by t = 0
              /\ webpage_url t = stream_url t
              /\ (p_is_stream p = true -> duration t = 0 /\ duration_str t = "LIVE")
              /\ (p_is_stream p = false -> duration t = Z.quot (p_length p) 1000).
Proof.
  unfold LavalinkBackend.search. intros H.
  destruct (LavalinkBackend.ensure_node node ready) as [e|[r c]] eqn:He; [discriminate|].
  destruct (fetch_tracks node _) as [e|results] eqn:Hf; [discriminate|].
  injection H as <- <-.
  assert (Hav : wavelink_available node = true /\ r = true).
  { unfold LavalinkBackend.ensure_node in He.
    destruct (wavelink_available node); [|discriminate]. simpl in He.
    destruct ready; [injection He as <- _; auto|].
    destruct (node_connect node); [discriminate|]. injection He as <- _. auto. }
  destruct Hav as [Hav ->].
  split; [reflexivity|]. split.
  { unfold LavalinkBackend.ensure_node. now rewrite Hav. }
  split; [rewrite length_fmap, length_take; lia|].
  exists results. split; [reflexivity|]. split; [now rewrite length_fmap, length_take|].
  intros i t Ht. rewrite list_lookup_fmap in Ht.
  destruct (take 100 results !! i) as [p|] eqn:Hp; [|discriminate].
  injection Ht as <-. apply lookup_take_Some in Hp as [Hp _].
  exists p. split; [exact Hp|]. unfold LavalinkBackend.to_track. cbn [title source requested_by
    webpage_url stream_url duration].
  split; [reflexivity|]. split; [reflexivity|]. split; [reflexivity|].
  split; [reflexivity|]. split.
  - intros ->. split; reflexivity.
  - intros ->. reflexivity.
Qed.

Lemma lavalink_search_tracks_witness :
  let node := mkNode true None (fun _ => false)
                (fun _ => inr [mkPlayable "Radio" (Some "http://radio") true 0 None]) in
  LavalinkBackend.ensure_node node true = inr (true, false).
Proof.
  cbv zeta.
  destruct (lavalink_search_tracks
              (mkNode true None (fun _ => false)
                 (fun _ => inr [mkPlayable "Radio" (Some "http://radio") true 0 None]))
              false "radio"
              [mkTrack "Radio" "http://radio" "http://radio" 0 0 "lavalink" None None]
              true eq_refl) as (_ & H & _).
  exact H.
Defined.

Lemma make_track_shape (d : Entry) :
  title (LocalBackend._make_track d) <> ""
  /\ source (LocalBackend._make_track d) = "yt"
  /\ requested_by (LocalBackend._make_track d) = 0
  /\ (webpage_url (LocalBackend._make_track d) <> ""
      -> stream_url (LocalBackend._make_track d) <> "").
Proof.
  unfold LocalBackend._make_track. cbn [title source requested_by webpage_url stream_url].
  split; [|split; [reflexivity|split; [reflexivity|]]].
  - destruct (e_title d) as [t|]; simpl; [|discriminate].
    destruct (String.eqb_spec t ""); simpl; [discriminate | assumption].
  - unfold str_or at 3. destruct (e_url d) as [u|]; simpl; [|auto].
    destruct (String.eqb_spec u ""); simpl; auto.
Qed.

Lemma first_hits_ok (lookup : string -> option (BackendError + list Track))
    (titles : list string) (tracks : list Track) :
  (forall q sub, lookup q = Some (inr sub) -> Forall local_track_ok sub) ->
  LocalBackend.first_hits lookup titles = Some (inr tracks) ->
  Forall local_track_ok tracks /\ (length tracks <= length titles)%nat.
Proof.
  intros Hl. revert tracks. induction titles as [|t rest IH]; intros tracks H; simpl in H.
  - injection H as <-. split; [constructor | simpl; lia].
  - destruct (lookup ("ytsearch1:" +:+ t)) as [[e|sub]|] eqn:Hs; try discriminate.
    destruct (LocalBackend.first_hits lookup rest) as [[e|results]|]; try discriminate.
    destruct (IH results eq_refl) as [Hok Hlen].
    injection H as <-. destruct sub as [|first sub'].
    + split; [exact Hok | simpl; lia].
    + apply Hl in Hs. inversion Hs; subst. split; [constructor; assumption | simpl; lia].
Qed.

Lemma first_hits_length (lookup : string -> option (BackendError + list Track))
    (titles : list string) (tracks : list Track) :
  LocalBackend.first_hits lookup titles = Some (inr tracks) ->
  (length tracks <= length titles)%nat.
Proof.
  revert tracks. induction titles as [|t rest IH]; intros tracks H; simpl in H.
  - injection H as <-. simpl. lia.
  - destruct (lookup ("ytsearch1:" +:+ t)) as [[e|sub]|]; try discriminate.
    destruct (LocalBackend.first_hits lookup rest) as [[e|results]|]; try discriminate.
    specialize (IH results eq_refl). injection H as <-.
    destruct sub; simpl; lia.
Qed.

Lemma first_hits_total (lookup : string -> option (BackendError + list Track))
    (titles : list string) :
  (forall t, is_Some (lookup ("ytsearch1:" +:+ t))) ->
  is_Some (LocalBackend.first_hits lookup titles).
Proof.
  intros Hl. induction titles as [|t rest IH]; simpl; [eauto|].
  destruct (Hl t) as [[e|sub] ->]; [eauto|].
  destruct IH as [[e|results] ->]; eauto.
Qed.

Lemma local_search_plain (n : nat) (x : Extractor) (query : string) :
  spotify_search x query = false -> is_Some (LocalBackend.search (S n) x query).
Proof.
  intros Hs. simpl. destruct (ytdlp_installed x); simpl; [|eauto]. rewrite Hs.
  destruct (_extract x _) as [e|info]; [eauto|].
  destruct (info_entries info); eauto.
Qed.

(** X21. Every track returned by a search of the local backend, through
    the direct branch or the Spotify branch at any depth: its title is not
    empty (an entry without one is called [Без названия]), it is marked
    [yt] with requester 0, and it has an address to stream from whenever it
    has a page address. *)
Theorem local_search_tracks_well_formed (fuel : nat) (x : Extractor) (query : string)
    (tracks : list Track) :
  LocalBackend.search fuel x query = Some (inr tracks) ->
  Forall (fun t => title t <> "" /\ source t = "yt" /\ requested_by t = 0
                   /\ (webpage_url t <> "" -> stream_url t <> "")) tracks.
Proof.
  change (LocalBackend.search fuel x query = Some (inr tracks) -> Forall local_track_ok tracks).
  revert query tracks. induction fuel as [|fuel IH]; intros query tracks H; [discriminate|].
  simpl in H. destruct (ytdlp_installed x); simpl in H; [|discriminate].
  destruct (spotify_search x query).
  - destruct (_extract_spotify x query) as [e|info]; [discriminate|].
    apply first_hits_ok in H; [tauto|]. intros q sub Hq. exact (IH q sub Hq).
  - destruct (_extract x _) as [e|info]; [discriminate|].
    destruct (info_entries info) as [entries|]; injection H as <-.
    + apply Forall_fmap, Forall_forall. intros d _. exact (make_track_shape d).
    + constructor; [exact (make_track_shape _) | constructor].
Qed.

Lemma local_search_tracks_well_formed_witness :
  Forall (fun t => title t <> "" /\ source t = "yt" /\ requested_by t = 0
                   /\ (webpage_url t <> "" -> stream_url t <> ""))
    [LocalBackend._make_track (mkEntry None (Some "http://page") None None None None None None)].
Proof.
  apply (local_search_tracks_well_formed 1
           (mkExtractor true (fun _ => false) (fun _ => true)
              (fun _ => inr (mkInfo None
                               (mkEntry None (Some "http://page") None None None None None None)))
              (fun _ => inl "unused"))
           "http://page").
  reflexivity.
Defined.

(** X22. When no query of the form [ytsearch1:<title>] is taken for a
    Spotify address, a search of the local backend ends: the Spotify branch
    calls [search] one level deep and no deeper. What it returns for a
    Spotify address is at most a hundred tracks, and at most one for each
    title: the titles of the entries, and the single title when there is
    one. *)
Theorem local_search_ends (n : nat) (x : Extractor) (query : string) :
  (forall t, spotify_search x ("ytsearch1:" +:+ t) = false) ->
  exists r,
    LocalBackend.search (S (S n)) x query = Some r
    /\ forall info tracks,
         spotify_search x query = true -> _extract_spotify x query = inr info ->
         r = inr tracks ->
         (length tracks <= 100)%nat
         /\ (length tracks
             <= length (entries_titles info)
                + (if str_truthy (single_title info) then 1 else 0))%nat.
Proof.
  intros Hsp. destruct (spotify_search x query) eqn:Hq.
  - change (LocalBackend.search (S (S n)) x query)
      with (if negb (ytdlp_installed x)
            then Some (inl (RuntimeError "yt-dlp не установлен. pip install -U yt-dlp"))
            else if spotify_search x query then
              match _extract_spotify x query with
              | inl e => Some (inl (Upstream e))
              | inr info =>
                  LocalBackend.first_hits (LocalBackend.search (S n) x)
                    (take 100 (if str_truthy (single_title info)
                               then default "" (single_title info) :: entries_titles info
                               else entries_titles info))
              end
            else
              match _extract x (if url_regex_search x query then query
                                else "ytsearch1:" +:+ query) with
              | inl e => Some (inl (Upstream e))
              | inr info =>
                  match info_entries info with
                  | Some entries => Some (inr (LocalBackend._make_track <$> omap id entries))
                  | None => Some (inr [LocalBackend._make_track (info_self info)])
                  end
              end).
    rewrite Hq. destruct (ytdlp_installed x); simpl negb; cbv iota.
    + destruct (_extract_spotify x query) as [e|info] eqn:He.
      * eexists. split; [reflexivity|]. intros info tracks _ Hi. discriminate.
      * destruct (first_hits_total (LocalBackend.search (S n) x)
                    (take 100 (if str_truthy (single_title info)
                               then default "" (single_title info) :: entries_titles info
                               else entries_titles info))
                    (fun t => local_search_plain n x _ (Hsp t))) as [r Hr].
        exists r. split; [exact Hr|]. intros info' tracks _ Hi ->. injection Hi as <-.
        apply first_hits_length in Hr. rewrite length_take in Hr.
        destruct (str_truthy (single_title info)); cbn [length] in Hr; lia.
    + eexists. split; [reflexivity|]. intros info tracks _ _ Hr. discriminate.
  - destruct (local_search_plain (S n) x query Hq) as [r Hr].
    exists r. split; [exact Hr|]. intros info tracks Ht. discriminate.
Qed.

Lemma local_search_ends_witness :
  exists r,
    LocalBackend.search 2
      (mkExtractor true (fun q => String.eqb q "sp") (fun _ => false)
         (fun _ => inr (mkInfo None (mkEntry (Some "Song") None None (Some "http://s") None
                                      None None None)))
         (fun _ => inr (mkSpotifyInfo ["one"; "two"] None)))
      "sp" = Some r
    /\ forall tracks, r = inr tracks -> (length tracks <= 2)%nat.
Proof.
  destruct (local_search_ends 0
              (mkExtractor true (fun q => String.eqb q "sp") (fun _ => false)
                 (fun _ => inr (mkInfo None (mkEntry (Some "Song") None None (Some "http://s")
                                              None None None None)))
                 (fun _ => inr (mkSpotifyInfo ["one"; "two"] None)))
              "sp" (fun t => eq_refl)) as (r & Hr & Hb).
  exists r. split; [exact Hr|]. intros tracks E.
  destruct (Hb (mkSpotifyInfo ["one"; "two"] None) tracks eq_refl eq_refl E) as [_ H].
  exact H.
Defined.

(** ** FFmpeg options *)

Lemma py_clamp_range (volume : Q) :
  let v := py_max (0 # 1) (py_min (2 # 1) volume) in
  ((0 # 1) <= v)%Q /\ (v <= (2 # 1))%Q
  /\ (((0 # 1) <= volume)%Q -> (volume <= (2 # 1))%Q -> (v == volume)%Q)
  /\ ((volume < (0 # 1))%Q -> v = (0 # 1)%Q)
  /\ (((2 # 1) < volume)%Q -> v = (2 # 1)%Q).
Proof.
  cbv zeta. unfold py_max, py_min.
  assert (Hcontra : forall a b : Q, (a < b)%Q -> (b <= a)%Q -> False).
  { intros a b Hab Hba. apply (Qlt_irrefl a). eapply Qlt_le_trans; eassumption. }
  assert (H02 : ((0 # 1) <= (2 # 1))%Q) by (unfold Qle; simpl; lia).
  destruct (Qle_bool (2 # 1) volume) eqn:H2.
  - apply Qle_bool_iff in H2.
    change (Qle_bool (2 # 1)%Q (0 # 1)%Q) with false. cbv iota.
    split; [exact H02|]. split; [apply Qle_refl|]. split; [|split].
    + intros _ Hle. apply Qle_antisym; assumption.
    + intros Hlt. exfalso. apply (Hcontra volume (0 # 1)%Q Hlt).
      eapply Qle_trans; [exact H02 | exact H2].
    + reflexivity.
  - assert (Hlt2 : (volume < (2 # 1))%Q).
    { apply Qnot_le_lt. intros Hc. apply Qle_bool_iff in Hc. congruence. }
    destruct (Qle_bool volume (0 # 1)) eqn:H0.
    + apply Qle_bool_iff in H0.
      split; [apply Qle_refl|]. split; [exact H02|]. split; [|split].
      * intros Hle _. apply Qle_antisym; assumption.
      * reflexivity.
      * intros Hc. exfalso. apply (Hcontra volume (2 # 1)%Q Hlt2). apply Qlt_le_weak, Hc.
    + assert (Hgt0 : ((0 # 1) < volume)%Q).
      { apply Qnot_le_lt. intros Hc. apply Qle_bool_iff in Hc. congruence. }
      split; [apply Qlt_le_weak, Hgt0|]. split; [apply Qlt_le_weak, Hlt2|]. split; [|split].
      * intros _ _. reflexivity.
      * intros Hc. exfalso. apply (Hcontra volume (0 # 1)%Q Hc). apply Qlt_le_weak, Hgt0.
      * intros Hc. exfalso. apply (Hcontra volume (2 # 1)%Q Hlt2). apply Qlt_le_weak, Hc.
Qed.

(** X23. The options built for FFmpeg: the volume written into the
    filter chain always lies in [0, 2] (a session volume in that range is
    written as it is, a lower one as 0, a higher one as 2); the volume
    filter comes last; a filter that is unset, empty or unknown adds
    nothing before it, and a known one adds exactly its chain. *)
Theorem ffmpeg_options_volume_and_filter (fmt_2f : Q -> string) (filter_id : option string)
    (volume : Q) :
  exists v chain,
    _ffmpeg_options fmt_2f filter_id volume
    = (["-reconnect"; "1"; "-reconnect_streamed"; "1"; "-reconnect_delay_max"; "5"; "-nostdin"],
       ["-vn"; "-af"; join_comma (chain ++ ["volume=" +:+ fmt_2f v]); "-bufsize"; "64k"])
    /\ ((0 # 1) <= v)%Q /\ (v <= (2 # 1))%Q
    /\ (((0 # 1) <= volume)%Q -> (volume <= (2 # 1))%Q -> (v == volume)%Q)
    /\ ((volume < (0 # 1))%Q -> v = (0 # 1)%Q)
    /\ (((2 # 1) < volume)%Q -> v = (2 # 1)%Q)
    /\ match filter_id with
       | None => chain = []
       | Some f =>
           match ffmpeg_filter (Some f) with
           | Some c => f <> "" /\ c <> "" /\ chain = [c]
           | None => chain = []
           end
       end.
Proof.
  exists (py_max (0 # 1) (py_min (2 # 1) volume)).
  exists (if str_truthy filter_id && str_truthy (ffmpeg_filter filter_id)
          then [default "" (ffmpeg_filter filter_id)] else []).
  split; [reflexivity|].
  destruct (py_clamp_range volume) as (H1 & H2 & H3 & H4 & H5).
  split; [exact H1|]. split; [exact H2|]. split; [exact H3|].
  split; [exact H4|]. split; [exact H5|].
  destruct filter_id as [f|]; [|reflexivity].
  unfold ffmpeg_filter.
  destruct (String.eqb_spec f "bassboost") as [->|]; [repeat split; discriminate|].
  destruct (String.eqb_spec f "nightcore") as [->|]; [repeat split; discriminate|].
  destruct (String.eqb_spec f "vaporwave") as [->|]; [repeat split; discriminate|].
  destruct (String.eqb_spec f "karaoke") as [->|]; [repeat split; discriminate|].
  destruct (String.eqb_spec f "echo") as [->|]; [repeat split; discriminate|].
  simpl. now rewrite andb_false_r.
Qed.

(** ** Undoing an edit of the queue *)

Lemma list_insert_at_deleted {A} (i : nat) (x : A) (q : list A) :
  q !! i = Some x -> list_insert_at i x (delete i q) = q.
Proof.
  intros Hx. unfold list_insert_at. rewrite delete_take_drop.
  assert (Hi : (i < length q)%nat) by (apply lookup_lt_is_Some; eauto).
  rewrite take_app_le by (rewrite length_take; lia).
  rewrite take_take, Nat.min_id.
  rewrite drop_app_ge by (rewrite length_take; lia).
  rewrite length_take. replace (i - i `min` length q)%nat with 0%nat by lia.
  rewrite drop_0. now apply take_drop_middle.
Qed.

Lemma move_valid (gid : Z) (env : Env) (src dst : Z) (w : World) (s : GuildState)
    (t : Track) :
  guild env = Some gid -> states w !! gid = Some s ->
  valid_index src (queue s) = true -> valid_index dst (queue s) = true ->
  queue s !! position src = Some t ->
  states (snd (MusicPower.move env src dst w))
  = <[gid := set_queue (list_insert_at (position dst) t (delete (position src) (queue s))) s]>
      (states w).
Proof.
  intros Hg Hs Hsrc Hdst Ht. unfold MusicPower.move.
  rewrite Hg, (gs_found gid w s Hs). cbv beta iota zeta.
  rewrite move_guard, Hsrc, Hdst. simpl negb. cbv iota.
  destruct (list_pop_in_range (position src) (queue s) (valid_index_position _ _ Hsrc))
    as (x & Hx & Hpop).
  rewrite Ht in Hx. injection Hx as <-.
  unfold position in Hpop. rewrite Hpop. reflexivity.
Qed.

(** X24. A [move] is undone by the opposite [move]: after moving the
    track at [src] to [dst] and then the track at [dst] to [src], both
    indices valid, the queue is the one before, and the current track was
    never touched. *)
Theorem move_back_restores_queue (gid : Z) (env : Env) (src dst : Z) (w : World)
    (s : GuildState) :
  guild env = Some gid -> states w !! gid = Some s ->
  valid_index src (queue s) = true -> valid_index dst (queue s) = true ->
  let w1 := snd (MusicPower.move env src dst w) in
  let w2 := snd (MusicPower.move env dst src w1) in
  queue_of gid w2 = queue s
  /\ now_playing gid w1 = now s /\ now_playing gid w2 = now s
  /\ length (queue_of gid w1) = length (queue s).
Proof.
  intros Hg Hs Hsrc Hdst. cbv zeta.
  pose proof (valid_index_position _ _ Hsrc) as Hps.
  pose proof (valid_index_position _ _ Hdst) as Hpd.
  destruct (lookup_lt_is_Some_2 (queue s) (position src) Hps) as [t Ht].
  destruct (moved_spec (position src) (position dst) (queue s) t Hps Hpd Ht)
    as (Hat & Hdel & Hlen).
  set (q1 := list_insert_at (position dst) t (delete (position src) (queue s))) in *.
  pose proof (move_valid gid env src dst w s t Hg Hs Hsrc Hdst Ht) as H1. fold q1 in H1.
  set (w1 := snd (MusicPower.move env src dst w)) in *.
  assert (Hs1 : states w1 !! gid = Some (set_queue q1 s))
    by (rewrite H1; apply lookup_insert_eq).
  assert (Hv : forall i, valid_index i (queue s) = valid_index i (queue (set_queue q1 s)))
    by (intros i; unfold valid_index; simpl queue; now rewrite Hlen).
  assert (Ht1 : queue (set_queue q1 s) !! position dst = Some t)
    by (simpl queue; rewrite Hat; exact Ht).
  pose proof (move_valid gid env dst src w1 (set_queue q1 s) t Hg Hs1
                ltac:(rewrite <- Hv; exact Hdst) ltac:(rewrite <- Hv; exact Hsrc) Ht1) as H2.
  unfold queue_of, now_playing. rewrite H2, Hs1, lookup_insert_eq.
  simpl queue. simpl now. rewrite Hdel, (list_insert_at_deleted _ _ _ Ht).
  repeat split. exact Hlen.
Qed.

Lemma move_back_restores_queue_witness :
  queue_of 7
    (snd (MusicPower.move (Sample.env None) 3 1
            (snd (MusicPower.move (Sample.env None) 1 3
                    (Sample.world (Sample.session LoopMode.OFF None
                                     [Sample.A; Sample.B; Sample.C]))))))
  = [Sample.A; Sample.B; Sample.C].
Proof.
  destruct (move_back_restores_queue 7 (Sample.env None) 1 3
              (Sample.world (Sample.session LoopMode.OFF None [Sample.A; Sample.B; Sample.C]))
              (Sample.session LoopMode.OFF None [Sample.A; Sample.B; Sample.C])
              eq_refl eq_refl eq_refl eq_refl) as [H _].
  exact H.
Defined.
